(** * srt-fixer: a shallow embedding of src/index.ts and its specification

    Strings of the source are modelled as lists of bytes ([str]); JavaScript
    numbers that hold integers are modelled as [Z] (they are exact in the
    safe-integer range that timestamps and counters live in). *)

From Stdlib Require Import List String Ascii ZArith Lia Bool.
From Stdlib Require Import Sorting.Sorted Sorting.Permutation.
From Stdlib Require Import Strings.Byte.
Import ListNotations.

Open Scope Z_scope.

(** ** Strings *)

Definition str := list byte.

(** A string literal of the source, as a list of bytes. *)
Definition s (x : string) : str := list_byte_of_string x.

Definition str_eqb (a b : str) : bool :=
  if list_eq_dec Byte.byte_eq_dec a b then true else false.

Definition byte_in_range (lo hi c : byte) : bool :=
  (N.leb (Byte.to_N lo) (Byte.to_N c) && N.leb (Byte.to_N c) (Byte.to_N hi))%bool.

(** [[1-9]] *)
Definition is_digit19 (c : byte) : bool := byte_in_range "1"%byte "9"%byte c.

(** [\d] (ASCII digits, the source's regexes have no [u] flag) *)
Definition is_digit (c : byte) : bool := byte_in_range "0"%byte "9"%byte c.

(** ** Position tags (lines 27-28) *)

Definition POSITION_TAGS : list str :=
  [s "\an2"; s "\an8"; s "\an5"; s "\an4"; s "\an6"].

Definition DEFAULT_TAG : str := s "\an2".

(** [POSITION_TAGS[POSITION_TAGS.length - 1]] *)
Definition LAST_TAG : str := last POSITION_TAGS DEFAULT_TAG.

(** [extractLeadingTag]: [text.match(/^\{(\\an[1-9])\}/)] and its group 1. *)
Definition extractLeadingTag (text : str) : option str :=
  match text with
  | o :: b :: a :: n :: d :: c :: _ =>
      if (Byte.eqb o "{"%byte && Byte.eqb b "\"%byte && Byte.eqb a "a"%byte
          && Byte.eqb n "n"%byte && is_digit19 d && Byte.eqb c "}"%byte)%bool
      then Some [b; a; n; d]
      else None
  | _ => None
  end.

(** [text.replace(/^\{\\an[1-9]\}/, "")] *)
Definition stripLeadingTag (text : str) : str :=
  match extractLeadingTag text with
  | Some _ => skipn 6 text
  | None => text
  end.

(** [stripAllTags]: [text.replace(/\{\\an[1-9]\}/g, "")]; the global
    replace scans left to right and resumes after each match.  The fuel is
    the length of the text, and every round consumes at least one byte. *)
Fixpoint strip_tags_fuel (fuel : nat) (text : str) : str :=
  match fuel with
  | O => text
  | S f =>
      match text with
      | [] => []
      | c :: rest =>
          match extractLeadingTag text with
          | Some _ => strip_tags_fuel f (skipn 6 text)
          | None => c :: strip_tags_fuel f rest
          end
      end
  end.

Definition stripAllTags (text : str) : str := strip_tags_fuel (List.length text) text.

(** ** Blocks (lines 3-13) *)

Record SubtitleBlock := mkBlock {
  originalOrder : Z;
  index : option Z;
  startMs : Z;
  endMs : Z;
  timingLine : str;
  lines : list str;
  assignedTag : option str;
  existingTag : option str;
  (** [keepExisting?: boolean]; [undefined] and [false] are both falsy *)
  keepExisting : bool
}.

Definition set_lines (b : SubtitleBlock) (ls : list str) : SubtitleBlock :=
  mkBlock (originalOrder b) (index b) (startMs b) (endMs b) (timingLine b)
    ls (assignedTag b) (existingTag b) (keepExisting b).

Definition set_existingTag (b : SubtitleBlock) (t : option str) : SubtitleBlock :=
  mkBlock (originalOrder b) (index b) (startMs b) (endMs b) (timingLine b)
    (lines b) (assignedTag b) t (keepExisting b).

Definition set_assignedTag (b : SubtitleBlock) (t : str) : SubtitleBlock :=
  mkBlock (originalOrder b) (index b) (startMs b) (endMs b) (timingLine b)
    (lines b) (Some t) (existingTag b) (keepExisting b).

Definition set_keepExisting (b : SubtitleBlock) : SubtitleBlock :=
  mkBlock (originalOrder b) (index b) (startMs b) (endMs b) (timingLine b)
    (lines b) (assignedTag b) (existingTag b) true.

(** A simple block as the parsers produce it. *)
Definition mk (order st en : Z) (line : string) : SubtitleBlock :=
  mkBlock order None st en [] [s line] None None false.

Record AssignOptions := mkOptions {
  clean : bool;
  ignoreExisting : bool;
  omitDefault : bool
}.

(** ** Array.prototype.sort

    [Array.prototype.sort] is stable, and with a consistent comparator its
    result is the unique stable sort by that comparator; a stable insertion
    sort computes the same list. *)

Section Sort.
Variable A : Type.
Variable cmp : A -> A -> Z.

Fixpoint insert_by (x : A) (l : list A) : list A :=
  match l with
  | [] => [x]
  | y :: l' => if cmp x y <? 0 then x :: l else y :: insert_by x l'
  end.

Definition sort_by (l : list A) : list A :=
  fold_left (fun acc x => insert_by x acc) l [].
End Sort.

Arguments insert_by {A} cmp x l.
Arguments sort_by {A} cmp l.

(** The comparator of lines 454-457. *)
Definition sweep_cmp (a b : SubtitleBlock) : Z :=
  if negb (startMs a =? startMs b) then startMs a - startMs b
  else endMs a - endMs b.

(** ** The resolver, assignSlots (lines 453-518) *)

Record ActiveEntry := mkEntry { e_endMs : Z; e_tag : str }.

(** Lines 462-466: remove every entry with [block.startMs >= endMs]. *)
Definition evict (start : Z) (active : list ActiveEntry) : list ActiveEntry :=
  filter (fun e => negb (e_endMs e <=? start)) active.

(** Lines 483-490: the first palette tag not in use. *)
Definition first_free (used : list str) : option str :=
  find (fun t => negb (existsb (str_eqb t) used)) POSITION_TAGS.

(** Lines 483-493: the palette scan with its fallback. *)
Definition choose_tag (used : list str) : str :=
  match first_free used with
  | Some t => t
  | None => LAST_TAG
  end.

Definition is_some {X} (x : option X) : bool :=
  match x with Some _ => true | None => false end.

(** The condition of line 476, on the block as it arrives in the sweep. *)
Definition reused (o : AssignOptions) (b : SubtitleBlock) : bool :=
  (negb (clean o) && ignoreExisting o
   && is_some (extractLeadingTag (hd [] (lines b))))%bool.

(** One iteration of the sweep loop (lines 462-496). *)
Definition sweep_step (o : AssignOptions) (active : list ActiveEntry)
    (block : SubtitleBlock) : list ActiveEntry * SubtitleBlock :=
  let active1 := evict (startMs block) active in
  let firstLine := hd [] (lines block) in
  let existing := extractLeadingTag firstLine in
  let b1 := set_existingTag block existing in
  let b2 := if clean o then set_lines b1 (map stripAllTags (lines b1)) else b1 in
  match existing with
  | Some t =>
      if (negb (clean o) && ignoreExisting o)%bool
      then (active1 ++ [mkEntry (endMs block) t],
            set_keepExisting (set_assignedTag b2 t))
      else let chosen := choose_tag (map e_tag active1) in
           (active1 ++ [mkEntry (endMs block) chosen], set_assignedTag b2 chosen)
  | None =>
      let chosen := choose_tag (map e_tag active1) in
      (active1 ++ [mkEntry (endMs block) chosen], set_assignedTag b2 chosen)
  end.

(** The sweep over the working list; each element carries the position of
    its block in the caller's array, standing for the object's identity
    (the source mutates the shared block objects in place). *)
Fixpoint sweep (o : AssignOptions) (active : list ActiveEntry)
    (work : list (nat * SubtitleBlock)) : list ActiveEntry * list (nat * SubtitleBlock) :=
  match work with
  | [] => (active, [])
  | (i, b) :: rest =>
      let (active', b') := sweep_step o active b in
      let (active'', rest') := sweep o active' rest in
      (active'', (i, b') :: rest')
  end.

(** Lines 499-517: the rewrite of the first line, after the sweep. *)
Definition finalize (o : AssignOptions) (block : SubtitleBlock) : SubtitleBlock :=
  let tag := match assignedTag block with Some t => t | None => DEFAULT_TAG end in
  if keepExisting block then block else
  match lines block with
  | [] => block
  | firstLine :: more =>
      if (omitDefault o && str_eqb tag DEFAULT_TAG)%bool
      then set_lines block (stripLeadingTag firstLine :: more)
      else
        match firstLine with
        | c :: _ =>
            if Byte.eqb c "{"%byte
            then set_lines block ((["{"%byte] ++ tag ++ ["}"%byte] ++ stripLeadingTag firstLine) :: more)
            else set_lines block ((["{"%byte] ++ tag ++ ["}"%byte] ++ firstLine) :: more)
        | [] => set_lines block ((["{"%byte] ++ tag ++ ["}"%byte] ++ firstLine) :: more)
        end
  end.

Fixpoint indexed_from {A} (k : nat) (l : list A) : list (nat * A) :=
  match l with
  | [] => []
  | x :: l' => (k, x) :: indexed_from (S k) l'
  end.

Definition indexed {A} (l : list A) : list (nat * A) := indexed_from 0 l.

Fixpoint lookup (i : nat) (l : list (nat * SubtitleBlock)) : option SubtitleBlock :=
  match l with
  | [] => None
  | (j, b) :: l' => if Nat.eqb i j then Some b else lookup i l'
  end.

(** [const working = [...blocks].sort(...)] *)
Definition working (blocks : list SubtitleBlock) : list (nat * SubtitleBlock) :=
  sort_by (fun a b => sweep_cmp (snd a) (snd b)) (indexed blocks).

(** [assignSlots(blocks, options)]: the array [blocks] after the call. *)
Definition assignSlots (o : AssignOptions) (blocks : list SubtitleBlock)
    : list SubtitleBlock :=
  let swept := snd (sweep o [] (working blocks)) in
  map (fun '(i, b) =>
         finalize o (match lookup i swept with Some b' => b' | None => b end))
      (indexed blocks).

Definition tags_of (bs : list SubtitleBlock) : list (option string) :=
  map (fun b => option_map string_of_list_byte (assignedTag b)) bs.

Definition opts_default : AssignOptions := mkOptions false false true.

Definition six_blocks : list SubtitleBlock :=
  [mk 0 0 10000 "A"; mk 1 0 10000 "B"; mk 2 0 10000 "C";
   mk 3 0 10000 "D"; mk 4 0 10000 "E"; mk 5 0 10000 "F"].

(** ** Plain-text (SRT) parsing: the raw blocks (lines 388-390) *)

Definition NL : byte := x0a.
Definition CR : byte := x0d.

(** [content.replace(/\r\n/g, "\n")] *)
Fixpoint normalize_crlf (t : str) : str :=
  match t with
  | [] => []
  | c :: tl =>
      if Byte.eqb c CR then
        match tl with
        | d :: rest => if Byte.eqb d NL then NL :: normalize_crlf rest
                       else c :: normalize_crlf tl
        | [] => [c]
        end
      else c :: normalize_crlf tl
  end.

(** [normalized.split(/\n{2,}/)]: the scan keeps the current piece and the
    number of newlines seen since its last other byte; a run of two or more
    (the greedy match) closes the piece, a single one stays in it. *)
Fixpoint split_go (t : str) (cur : str) (nl : nat) : list str :=
  match t with
  | [] => if Nat.leb 2 nl then [cur; []] else [cur ++ repeat NL nl]
  | c :: rest =>
      if Byte.eqb c NL then split_go rest cur (S nl)
      else if Nat.leb 2 nl then cur :: split_go rest [c] 0
      else split_go rest (cur ++ repeat NL nl ++ [c]) 0
  end.

Definition split_newline_runs (t : str) : list str := split_go t [] 0.

(** [rawBlocks] of [parseSrt]. *)
Definition srt_raw_blocks (content : str) : list str :=
  split_newline_runs (normalize_crlf content).

(** ** Rich-format (ASS) timestamps (lines 157-174) *)

Definition digit_value (c : byte) : Z := Z.of_N (Byte.to_N c) - 48.

(** [Number(d)] of a string of ASCII digits. *)
Definition digits_value (d : str) : Z :=
  fold_left (fun acc c => acc * 10 + digit_value c) d 0.

Fixpoint span_digits (t : str) : str * str :=
  match t with
  | c :: rest =>
      if is_digit c then let (d, r) := span_digits rest in (c :: d, r)
      else ([], t)
  | [] => ([], [])
  end.

(** [ts.match(/^(\d+):(\d{2}):(\d{2})\.(\d{1,2})$/)] followed by the
    arithmetic; [\d+] is followed by [:], so its greedy match is the only
    one.  [Number.isNaN] never holds for a digit string. *)
Definition parseAssTimestampToMs (ts : str) : option Z :=
  match span_digits ts with
  | ([], _) => None
  | (h, c1 :: m1 :: m2 :: c2 :: s1 :: s2 :: dot :: frac) =>
      if (Byte.eqb c1 ":"%byte && is_digit m1 && is_digit m2
          && Byte.eqb c2 ":"%byte && is_digit s1 && is_digit s2
          && Byte.eqb dot "."%byte)%bool
      then
        let centi :=
          match frac with
          | [d] => if is_digit d then Some (digits_value [d], 1%nat) else None
          | [d; e] => if (is_digit d && is_digit e)%bool
                      then Some (digits_value [d; e], 2%nat) else None
          | _ => None
          end in
        match centi with
        | Some (centis, len) =>
            let millis := centis * (if Nat.eqb len 1 then 100 else 10) in
            Some (((digits_value h * 60 + digits_value [m1; m2]) * 60
                   + digits_value [s1; s2]) * 1000 + millis)
        | None => None
        end
      else None
  | _ => None
  end.

(** ** Colours (lines 189-201) *)

(** The ASCII white space and line terminators removed by [trim] and
    matched by [\s]: 0x09-0x0D and the space. [String.prototype.trim] and
    [\s] also take the Unicode spaces (U+00A0, U+FEFF, U+2028, ...); those
    are not modelled, and a theorem about a parser whose input may contain
    them assumes ASCII text ([is_ascii]). *)
Definition is_space (c : byte) : bool :=
  (byte_in_range x09 x0d c || Byte.eqb c " "%byte)%bool.

Fixpoint drop_spaces (t : str) : str :=
  match t with
  | c :: rest => if is_space c then drop_spaces rest else t
  | [] => []
  end.

Definition trim (t : str) : str := rev (drop_spaces (rev (drop_spaces t))).

Definition is_H (c : byte) : bool := (Byte.eqb c "H"%byte || Byte.eqb c "h"%byte)%bool.

(** [.replace(/^&?H/i, "")] *)
Definition strip_H_prefix (t : str) : str :=
  match t with
  | a :: h :: rest => if (Byte.eqb a "&"%byte && is_H h)%bool then rest
                      else if is_H a then h :: rest else t
  | [a] => if is_H a then [] else t
  | [] => []
  end.

(** [.replace(/&$/, "")] *)
Definition strip_amp_suffix (t : str) : str :=
  match rev t with
  | c :: r => if Byte.eqb c "&"%byte then rev r else t
  | [] => []
  end.

(** [s.padStart(6, "0")] *)
Definition padStart6 (t : str) : str :=
  repeat "0"%byte (6 - List.length t) ++ t.

(** [s.slice(-n)] for a string of length at least [n] *)
Definition lastn (n : nat) (t : str) : str := skipn (List.length t - n) t.

Definition is_hex (c : byte) : bool :=
  (is_digit c || byte_in_range "a"%byte "f"%byte c
   || byte_in_range "A"%byte "F"%byte c)%bool.

(** [/^[0-9a-fA-F]{2}$/.test(p)] *)
Definition hex2 (p : str) : bool :=
  match p with
  | [a; b] => (is_hex a && is_hex b)%bool
  | _ => false
  end.

Definition to_lower (c : byte) : byte :=
  if byte_in_range "A"%byte "Z"%byte c
  then match Byte.of_N (Byte.to_N c + 32) with Some d => d | None => c end
  else c.

(** [assColorToHex]; [undefined] and [""] are both [!color]. *)
Definition assColorToHex (color : option str) : option str :=
  match color with
  | None | Some [] => None
  | Some col =>
      let normalized := strip_amp_suffix (strip_H_prefix (trim col)) in
      match normalized with
      | [] => None
      | _ =>
          let hex := padStart6 normalized in
          let six := lastn 6 hex in
          let bb := firstn 2 six in
          let gg := firstn 2 (skipn 2 six) in
          let rr := skipn 4 six in
          if negb (hex2 rr) then None
          else if negb (hex2 gg) then None
          else if negb (hex2 bb) then None
          else Some (map to_lower ("#"%byte :: rr ++ gg ++ bb))
      end
  end.

(** ** Inline overrides of ASS events (lines 252-282) *)

Definition BS : byte := "\"%byte.
Definition DQ : byte := x22.

Definition is_letter (c : byte) : bool :=
  (byte_in_range "a"%byte "z"%byte c || byte_in_range "A"%byte "Z"%byte c)%bool.

(** The text up to the first [}] and the text after it. *)
Fixpoint find_close (t : str) : option (str * str) :=
  match t with
  | [] => None
  | c :: rest =>
      if Byte.eqb c "}"%byte then Some ([], rest)
      else match find_close rest with
           | Some (inner, after) => Some (c :: inner, after)
           | None => None
           end
  end.

(** The global replace of line 258, whose pattern is a brace, any bytes but a closing brace, and a closing brace: the text with every override block
    removed, and the group 1 of each block in order.  Every round consumes
    at least one byte, so the length of the text is enough fuel. *)
Fixpoint scan_blocks (fuel : nat) (t : str) : str * list str :=
  match fuel with
  | O => (t, [])
  | S f =>
      match t with
      | [] => ([], [])
      | c :: rest =>
          if Byte.eqb c "{"%byte then
            match find_close rest with
            | Some (inner, after) =>
                let (cl, bl) := scan_blocks f after in (cl, inner :: bl)
            | None => let (cl, bl) := scan_blocks f rest in (c :: cl, bl)
            end
          else let (cl, bl) := scan_blocks f rest in (c :: cl, bl)
      end
  end.

(** The longest prefix without [\] and [}] (the class [[^\\}]]). *)
Fixpoint span_token (t : str) : str * str :=
  match t with
  | c :: rest =>
      if (Byte.eqb c BS || Byte.eqb c "}"%byte)%bool then ([], t)
      else let (a, r) := span_token rest in (c :: a, r)
  | [] => ([], [])
  end.

(** [tags.match(/\\[A-Za-z]+[^\\}]*/g) ?? []]: a token runs from a
    backslash followed by a letter up to the next backslash or brace. *)
Fixpoint tokens_fuel (fuel : nat) (t : str) : list str :=
  match fuel with
  | O => []
  | S f =>
      match t with
      | [] => []
      | c :: rest =>
          match rest with
          | l :: _ =>
              if (Byte.eqb c BS && is_letter l)%bool then
                let (tok, after) := span_token rest in
                (BS :: tok) :: tokens_fuel f after
              else tokens_fuel f rest
          | [] => []
          end
      end
  end.

Definition tokens (t : str) : list str := tokens_fuel (List.length t) t.

Fixpoint span_hex (t : str) : str * str :=
  match t with
  | c :: rest => if is_hex c then let (a, r) := span_hex rest in (c :: a, r) else ([], t)
  | [] => ([], [])
  end.

(** The group [(&?H[0-9A-Fa-f]+&?)] right after [\1c] or [\c]. *)
Definition color_capture (t : str) : option str :=
  let '(amp, r1) :=
    match t with
    | a :: h :: _ => if (Byte.eqb a "&"%byte && Byte.eqb h "H"%byte)%bool
                     then (["&"%byte], skipn 1 t) else ([], t)
    | _ => ([], t)
    end in
  match r1 with
  | h :: r2 =>
      if Byte.eqb h "H"%byte then
        match span_hex r2 with
        | ([], _) => None
        | (hx, r3) =>
            match r3 with
            | a :: _ => if Byte.eqb a "&"%byte
                        then Some (amp ++ ["H"%byte] ++ hx ++ ["&"%byte])
                        else Some (amp ++ ["H"%byte] ++ hx)
            | [] => Some (amp ++ ["H"%byte] ++ hx)
            end
        end
      else None
  | [] => None
  end.

(** The five per-token regexes.  Each starts with [\\] and a token holds a
    single backslash, its first byte, so each can only match there. *)
Definition token_an (tok : str) : option str :=
  match tok with
  | b :: a :: n :: d :: _ =>
      if (Byte.eqb b BS && Byte.eqb a "a"%byte && Byte.eqb n "n"%byte && is_digit19 d)%bool
      then Some [BS; "a"%byte; "n"%byte; d] else None
  | _ => None
  end.

Definition token_fn (tok : str) : option str :=
  match tok with
  | b :: f :: n :: (_ :: _) as rest =>
      if (Byte.eqb b BS && Byte.eqb f "f"%byte && Byte.eqb n "n"%byte)%bool
      then Some (fst (span_token rest)) else None
  | _ => None
  end.

Definition token_fs (tok : str) : option str :=
  match tok with
  | b :: f :: x :: rest =>
      if (Byte.eqb b BS && Byte.eqb f "f"%byte && Byte.eqb x "s"%byte)%bool
      then match fst (span_digits rest) with [] => None | d => Some d end
      else None
  | _ => None
  end.

Definition token_c1 (tok : str) : option str :=
  match tok with
  | b :: one :: c :: rest =>
      if (Byte.eqb b BS && Byte.eqb one "1"%byte && Byte.eqb c "c"%byte)%bool
      then color_capture rest else None
  | _ => None
  end.

Definition token_c (tok : str) : option str :=
  match tok with
  | b :: c :: rest =>
      if (Byte.eqb b BS && Byte.eqb c "c"%byte)%bool then color_capture rest else None
  | _ => None
  end.

Record Overrides := mkOverrides {
  align : option str;
  fontName : option str;
  fontSize : option str;
  color : option str
}.

(** [x ?? y] *)
Definition coalesce {X} (x y : option X) : option X :=
  match x with Some v => Some v | None => y end.

(** The body of [tokenMatches.forEach] (lines 261-270). *)
Definition token_update (ov : Overrides) (tok : str) : Overrides :=
  let al := match token_an tok with Some a => Some a | None => align ov end in
  let fnm := match token_fn tok with Some f => Some (trim f) | None => fontName ov end in
  let fsz := match token_fs tok with Some f => Some f | None => fontSize ov end in
  let col1 := match token_c1 tok with
              | Some cap => coalesce (assColorToHex (Some cap)) (color ov)
              | None => color ov end in
  let col2 := match token_c tok with
              | Some cap => coalesce (assColorToHex (Some cap)) col1
              | None => col1 end in
  mkOverrides al fnm fsz col2.

(** [parseAssOverrides]: the overrides and the cleaned text. *)
Definition parseAssOverrides (text : str) : Overrides * str :=
  let (cleaned, blocks) := scan_blocks (List.length text) text in
  (fold_left (fun ov inner => fold_left token_update (tokens inner) ov)
     blocks (mkOverrides None None None None),
   cleaned).

(** ** Styled-text span (lines 284-299) *)

Fixpoint replace_byte (c : byte) (repl : str) (t : str) : str :=
  match t with
  | [] => []
  | d :: rest => if Byte.eqb d c then repl ++ replace_byte c repl rest
                 else d :: replace_byte c repl rest
  end.

Definition escapeHtmlAttr (v : str) : str :=
  replace_byte ">"%byte (s "&gt;")
    (replace_byte "<"%byte (s "&lt;")
      (replace_byte DQ (s "&quot;")
        (replace_byte "&"%byte (s "&amp;") v))).

(** JavaScript truthiness of an optional string. *)
Definition truthy (x : option str) : bool :=
  match x with Some (_ :: _) => true | _ => false end.

Definition attr (name : string) (v : str) : str :=
  s name ++ ["="%byte; DQ] ++ escapeHtmlAttr v ++ [DQ].

Fixpoint join (sep : str) (l : list str) : str :=
  match l with
  | [] => []
  | [x] => x
  | x :: r => x ++ sep ++ join sep r
  end.

Definition opt_attr (name : string) (v : option str) : list str :=
  match v with
  | Some x => if truthy v then [attr name x] else []
  | None => []
  end.

Definition wrapWithFonts (text : str) (fn fs col : option str) : str :=
  if negb (truthy fn || truthy fs || truthy col)%bool then text
  else s "<font " ++ join [" "%byte] (opt_attr "face" fn ++ opt_attr "size" fs ++ opt_attr "color" col)
       ++ [">"%byte] ++ text ++ s "</font>".

(** ** From an ASS event to text lines (lines 352-373) *)

Record StyleDef := mkStyle {
  Fontname : option str;
  Fontsize : option str;
  PrimaryColour : option str
}.

Definition emptyStyle : StyleDef := mkStyle None None None.

(** [t.replace(/\\X/g, "\n")] for the letter [x]. *)
Fixpoint replace_escape (x : byte) (t : str) : str :=
  match t with
  | [] => []
  | c :: tl =>
      if Byte.eqb c BS then
        match tl with
        | d :: rest => if Byte.eqb d x then NL :: replace_escape x rest
                       else c :: replace_escape x tl
        | [] => [c]
        end
      else c :: replace_escape x tl
  end.

Fixpoint split_on_go (sep : byte) (t : str) (cur : str) : list str :=
  match t with
  | [] => [cur]
  | c :: rest => if Byte.eqb c sep then cur :: split_on_go sep rest []
                 else split_on_go sep rest (cur ++ [c])
  end.

(** [t.split("\n")] *)
Definition split_lines (t : str) : list str := split_on_go NL t [].

(** The colour kept for an event (lines 356-360). *)
Definition event_color (omitWhiteColor : bool) (style : StyleDef) (ov : Overrides)
    : option str :=
  let colorFromOverride := is_some (color ov) in
  let col := coalesce (color ov) (assColorToHex (PrimaryColour style)) in
  let white := match col with
               | Some c => str_eqb (map to_lower c) (s "#ffffff")
               | None => false
               end in
  if (negb colorFromOverride && omitWhiteColor && white)%bool then None else col.

(** Lines 352-373 for one event with a well-formed time range: its text
    lines, or [None] when the event is skipped as empty. *)
Definition ass_event_lines (omitWhiteColor : bool) (style : StyleDef) (textField : str)
    : option (list str) :=
  let (ov, cleaned) := parseAssOverrides textField in
  let fnm := coalesce (fontName ov) (Fontname style) in
  let fsz := coalesce (fontSize ov) (Fontsize style) in
  let col := event_color omitWhiteColor style ov in
  let text := replace_escape "n"%byte (replace_escape "N"%byte cleaned) in
  let text := wrapWithFonts text fnm fsz col in
  let text := match align ov with
              | Some a => if truthy (Some a) then ["{"%byte] ++ a ++ ["}"%byte] ++ text else text
              | None => text
              end in
  let ls := split_lines text in
  if forallb (fun l => match trim l with [] => true | _ => false end) ls then None
  else Some ls.

(** ** Decimal rendering: [String(n)] and [padStart] (lines 183-186, 528) *)

Definition digit_char (d : Z) : byte :=
  match Byte.of_N (Z.to_N (d + 48)) with Some c => c | None => "0"%byte end.

(** The decimal digits of [n >= 0], in front of [acc]; the fuel bounds the
    number of digits. *)
Fixpoint decimal_go (fuel : nat) (n : Z) (acc : str) : str :=
  match fuel with
  | O => acc
  | S f =>
      let acc' := digit_char (n mod 10) :: acc in
      if n <? 10 then acc' else decimal_go f (n / 10) acc'
  end.

(** A number of [k] bits has at most [k] decimal digits. *)
Definition decimal (n : Z) : str := decimal_go (S (Z.to_nat (Z.log2 n))) n [].

(** [String(n)] for an integer [n]. *)
Definition String_of_Z (n : Z) : str :=
  if n <? 0 then "-"%byte :: decimal (- n) else decimal n.

(** ** The per-file loop of main (lines 575-631)

    The loop is modelled as the trace of effects it performs.  Reading a
    file, detecting its format and parsing it, serializing, and the choice
    of destination (lines 580-584, 597-615) are parameters: the loop's
    control flow does not depend on how they work. *)

Inductive Effect :=
  | ReadFile (path : str)
  | Stdout (msg : str)
  | Stderr (msg : str)
  | WriteFile (path : str) (content : str)
  | Exit (code : Z).

Section Main.
(** [await Bun.file(path).text()]: the text, or the message it throws. *)
Variable readText : str -> str + str.
(** [detectAssFormat] and [parseAss] or [parseSrt]: whether the file is
    ASS, its blocks and its skipped count. *)
Variable parseFile : str -> str -> bool * list SubtitleBlock * Z.
(** [serializeSrt] *)
Variable serialize : list SubtitleBlock -> str.
(** The destination of an output (lines 599-612); [None] is stdout. *)
Variable target : str -> option str.
(** [await Bun.write(path, text)]: [None], or the message it throws. *)
Variable writeFile : str -> str -> option str.
Variable opts : AssignOptions.

Fixpoint main_loop (inputs : list str) (failures : nat) (totalSkipped : Z)
    : list Effect :=
  match inputs with
  | [] =>
      (if 0 <? totalSkipped then [Stderr (s "Skipped " ++ String_of_Z totalSkipped ++ s " empty or malformed block(s).")] else [])
      ++ (if Nat.ltb 0 failures then [Exit 1] else [])
  | inputPath :: rest =>
      ReadFile inputPath ::
      match readText inputPath with
      | inl err => Stderr (inputPath ++ s ": " ++ err) :: main_loop rest (S failures) totalSkipped
      | inr inputText =>
          match parseFile inputPath inputText with
          | (isAss, [], _) =>
              [Stderr (if isAss then s "No valid ASS dialogue blocks found."
                       else s "No valid subtitle blocks found."); Exit 1]
          | (_, blocks, skippedBlocks) =>
              let output := serialize (assignSlots opts blocks) in
              match target inputPath with
              | None => Stdout output :: main_loop rest failures (totalSkipped + skippedBlocks)
              | Some path =>
                  match writeFile path (output ++ [NL]) with
                  | None => WriteFile path (output ++ [NL])
                              :: main_loop rest failures (totalSkipped + skippedBlocks)
                  | Some err => Stderr (inputPath ++ s ": " ++ err)
                                  :: main_loop rest (S failures) totalSkipped
                  end
              end
          end
      end
  end.
End Main.

(** The exit status of a run: the first [process.exit], else 0. *)
Fixpoint exit_status (trace : list Effect) : Z :=
  match trace with
  | [] => 0
  | Exit c :: _ => c
  | _ :: rest => exit_status rest
  end.

(** The order the sort establishes: by [key]. *)
Definition key_le {A} (key : A -> Z) (x y : A) : Prop := key x <= key y.

(** * The rest of the program *)

(** [t.padStart(k, "0")] *)
Definition padStart (k : nat) (t : str) : str :=
  repeat "0"%byte (k - List.length t) ++ t.

(** ** SRT timestamps (lines 121-137, 176-187) *)

(** [ts.match(/^(\d{2}):(\d{2}):(\d{2}),(\d{3})$/)] and the arithmetic of
    line 136; [Number.isNaN] never holds for a string of digits. *)
Definition parseTimestampToMs (ts : str) : option Z :=
  match ts with
  | [h1; h2; c1; m1; m2; c2; s1; s2; cm; f1; f2; f3] =>
      if (is_digit h1 && is_digit h2 && Byte.eqb c1 ":"%byte
          && is_digit m1 && is_digit m2 && Byte.eqb c2 ":"%byte
          && is_digit s1 && is_digit s2 && Byte.eqb cm ","%byte
          && is_digit f1 && is_digit f2 && is_digit f3)%bool
      then Some (((digits_value [h1; h2] * 60 + digits_value [m1; m2]) * 60
                  + digits_value [s1; s2]) * 1000 + digits_value [f1; f2; f3])
      else None
  | _ => None
  end.

(** [msToSrtTimestamp]: [Math.floor] is [Z.div] (the quotient of two
    integers in the safe range is rounded to the exact floor), [%] is
    [Z.rem] (its sign is the dividend's). *)
Definition msToSrtTimestamp (ms : Z) : str :=
  let totalSeconds := ms / 1000 in
  let millis := Z.rem ms 1000 in
  let seconds := Z.rem totalSeconds 60 in
  let totalMinutes := totalSeconds / 60 in
  let minutes := Z.rem totalMinutes 60 in
  let hours := totalMinutes / 60 in
  padStart 2 (String_of_Z hours) ++ [":"%byte] ++ padStart 2 (String_of_Z minutes)
  ++ [":"%byte] ++ padStart 2 (String_of_Z seconds) ++ [","%byte]
  ++ padStart 3 (String_of_Z millis).

(** ** The timing line (lines 139-146) *)

Definition starts_with (p t : str) : bool := str_eqb (firstn (List.length p) t) p.

Definition arrow : str := s "-->".

(** A match of [/\s*-->\s*/] at the start of [t]: the text after it.  Both
    [\s*] are greedy, and no white space is a [-], so there is nothing to
    backtrack. *)
Fixpoint match_arrow (t : str) : option str :=
  match t with
  | c :: r =>
      if is_space c then match_arrow r
      else if starts_with arrow t then Some (drop_spaces (skipn 3 t)) else None
  | [] => None
  end.

(** [line.split(/\s*-->\s*/)]: the scan tries a match at each position,
    cuts a piece at each match and resumes after it; every match is
    non-empty.  Each round consumes a byte, so the length is enough fuel. *)
Fixpoint split_arrow_go (fuel : nat) (t cur : str) : list str :=
  match fuel with
  | O => [cur ++ t]
  | S f =>
      match t with
      | [] => [cur]
      | c :: r =>
          match match_arrow t with
          | Some rest => cur :: split_arrow_go f rest []
          | None => split_arrow_go f r (cur ++ [c])
          end
      end
  end.

Definition split_arrow (line : str) : list str :=
  split_arrow_go (List.length line) line [].

(** [parseTimingLine]: start, end and the normalized timing line. *)
Definition parseTimingLine (line : str) : option (Z * Z * str) :=
  match split_arrow line with
  | [p0; p1] =>
      match parseTimestampToMs (trim p0), parseTimestampToMs (trim p1) with
      | Some st, Some en => Some (st, en, trim p0 ++ s " --> " ++ trim p1)
      | _, _ => None
      end
  | _ => None
  end.

(** ** SRT parsing (lines 388-445) *)

(** [line.includes("-->")] *)
Fixpoint contains_arrow (t : str) : bool :=
  match t with
  | [] => false
  | _ :: r => (starts_with arrow t || contains_arrow r)%bool
  end.

(** The first index whose element satisfies [p] (the loop of lines 407-412). *)
Fixpoint find_index {A} (p : A -> bool) (l : list A) : option nat :=
  match l with
  | [] => None
  | x :: r => if p x then Some O else option_map S (find_index p r)
  end.

(** [/^\d+$/.test(t)] *)
Definition is_index_line (t : str) : bool :=
  match t with [] => false | _ => forallb is_digit t end.

(** [line.trim().length === 0] *)
Definition is_blank (l : str) : bool :=
  match trim l with [] => true | _ => false end.

(** The body of [rawBlocks.forEach]: the block, or [None] when it is skipped. *)
Definition parse_srt_block (originalOrder : Z) (rawBlock : str) : option SubtitleBlock :=
  match trim rawBlock with
  | [] => None
  | trimmed =>
      match split_lines trimmed with
      | [] => None
      | ls =>
          match find_index contains_arrow ls with
          | None => None
          | Some ti =>
              match parseTimingLine (trim (nth ti ls [])) with
              | None => None
              | Some (st, en, tl) =>
                  let possibleIndex := match ti with O => [] | S k => trim (nth k ls []) end in
                  let idx := if is_index_line possibleIndex
                             then Some (digits_value possibleIndex) else None in
                  let textLines := skipn (S ti) ls in
                  if (match textLines with [] => true | _ => false end
                      || forallb is_blank textLines)%bool
                  then None
                  else Some (mkBlock originalOrder idx st en tl textLines None None false)
              end
          end
      end
  end.

Fixpoint parse_srt_go (order : Z) (raws : list str) : list SubtitleBlock * Z :=
  match raws with
  | [] => ([], 0)
  | r :: rest =>
      let (bs, skipped) := parse_srt_go (order + 1) rest in
      match parse_srt_block order r with
      | Some b => (b :: bs, skipped)
      | None => (bs, skipped + 1)
      end
  end.

(** [parseSrt]: the blocks and the number of skipped raw blocks. *)
Definition parseSrt (content : str) : list SubtitleBlock * Z :=
  parse_srt_go 0 (srt_raw_blocks content).

(** ** SRT output (lines 520-532) *)

(** The comparator of lines 521-525. *)
Definition serialize_cmp (a b : SubtitleBlock) : Z :=
  if negb (startMs a =? startMs b) then startMs a - startMs b
  else if negb (endMs a =? endMs b) then endMs a - endMs b
  else originalOrder a - originalOrder b.

Definition render_block (idx : nat) (b : SubtitleBlock) : str :=
  join [NL] ([String_of_Z (match index b with Some n => n | None => Z.of_nat idx + 1 end);
              timingLine b] ++ lines b).

Definition serializeSrt (blocks : list SubtitleBlock) : str :=
  join [NL; NL] (map (fun '(idx, b) => render_block idx b)
                   (indexed (sort_by serialize_cmp blocks))).

(** ** Output paths (lines 534-552) *)

Fixpoint lastIndexOf_go (c : byte) (t : str) (k : nat) (acc : option nat) : option nat :=
  match t with
  | [] => acc
  | d :: r => lastIndexOf_go c r (S k) (if Byte.eqb d c then Some k else acc)
  end.

(** [t.lastIndexOf(c)]; [None] is [-1]. *)
Definition lastIndexOf (c : byte) (t : str) : option nat := lastIndexOf_go c t 0 None.

(** [path.replace(/\\/g, "/")] *)
Definition normalize_slashes (path : str) : str :=
  map (fun c => if Byte.eqb c BS then "/"%byte else c) path.

(** [splitDirAndFile]: the pair [(dir, file)]. *)
Definition splitDirAndFile (path : str) : str * str :=
  let normalized := normalize_slashes path in
  match lastIndexOf "/"%byte normalized with
  | None => (s ".", normalized)
  | Some slash => (firstn slash normalized, skipn (S slash) normalized)
  end.

Definition replaceExtWithSrt (filename : str) : str :=
  match lastIndexOf "."%byte filename with
  | None => filename ++ s ".srt"
  | Some dot => firstn dot filename ++ s ".srt"
  end.

(** [applySuffix]; an undefined and an empty suffix are both [!suffix]. *)
Definition applySuffix (filename : str) (suffix : option str) : str :=
  match suffix with
  | None | Some [] => filename
  | Some sfx =>
      match lastIndexOf "."%byte filename with
      | None => filename ++ sfx
      | Some dot => firstn dot filename ++ sfx ++ skipn dot filename
      end
  end.

(** ** Command-line arguments (lines 30-97) *)

Record Args := mkArgs {
  inputs : list str;
  output : option str;
  outDir : option str;
  suffix : option str;
  inPlace : bool;
  args_clean : bool;
  args_ignoreExisting : bool;
  args_omitDefault : bool;
  keepWhite : bool;
  help : bool
}.

Definition args_init : Args :=
  mkArgs [] None None None false false false true false false.

Definition push_input (a : Args) (x : str) : Args :=
  mkArgs (inputs a ++ [x]) (output a) (outDir a) (suffix a) (inPlace a) (args_clean a)
    (args_ignoreExisting a) (args_omitDefault a) (keepWhite a) (help a).
Definition set_output (a : Args) (x : str) : Args :=
  mkArgs (inputs a) (Some x) (outDir a) (suffix a) (inPlace a) (args_clean a)
    (args_ignoreExisting a) (args_omitDefault a) (keepWhite a) (help a).
Definition set_outDir (a : Args) (x : str) : Args :=
  mkArgs (inputs a) (output a) (Some x) (suffix a) (inPlace a) (args_clean a)
    (args_ignoreExisting a) (args_omitDefault a) (keepWhite a) (help a).
Definition set_suffix (a : Args) (x : str) : Args :=
  mkArgs (inputs a) (output a) (outDir a) (Some x) (inPlace a) (args_clean a)
    (args_ignoreExisting a) (args_omitDefault a) (keepWhite a) (help a).
Definition set_inPlace (a : Args) : Args :=
  mkArgs (inputs a) (output a) (outDir a) (suffix a) true (args_clean a)
    (args_ignoreExisting a) (args_omitDefault a) (keepWhite a) (help a).
Definition set_clean (a : Args) : Args :=
  mkArgs (inputs a) (output a) (outDir a) (suffix a) (inPlace a) true
    (args_ignoreExisting a) (args_omitDefault a) (keepWhite a) (help a).
Definition set_ignoreExisting (a : Args) : Args :=
  mkArgs (inputs a) (output a) (outDir a) (suffix a) (inPlace a) (args_clean a)
    true (args_omitDefault a) (keepWhite a) (help a).
Definition set_omitDefault (a : Args) (v : bool) : Args :=
  mkArgs (inputs a) (output a) (outDir a) (suffix a) (inPlace a) (args_clean a)
    (args_ignoreExisting a) v (keepWhite a) (help a).
Definition set_keepWhite (a : Args) : Args :=
  mkArgs (inputs a) (output a) (outDir a) (suffix a) (inPlace a) (args_clean a)
    (args_ignoreExisting a) (args_omitDefault a) true (help a).
Definition set_help (a : Args) : Args :=
  mkArgs (inputs a) (output a) (outDir a) (suffix a) (inPlace a) (args_clean a)
    (args_ignoreExisting a) (args_omitDefault a) (keepWhite a) true.

(** The loop of lines 43-94 over the remaining arguments.  A flag that takes
    a value and is the last argument is not consumed as a flag. *)
Fixpoint parse_args_go (args : list str) (a : Args) : Args :=
  match args with
  | [] => a
  | arg :: rest =>
      if (str_eqb arg (s "--help") || str_eqb arg (s "-h"))%bool
      then parse_args_go rest (set_help a)
      else if str_eqb arg (s "--clean") then parse_args_go rest (set_clean a)
      else if str_eqb arg (s "--ignore-existing") then parse_args_go rest (set_ignoreExisting a)
      else if str_eqb arg (s "--omit-default") then parse_args_go rest (set_omitDefault a true)
      else if str_eqb arg (s "--keep-default") then parse_args_go rest (set_omitDefault a false)
      else if str_eqb arg (s "--keep-white") then parse_args_go rest (set_keepWhite a)
      else if str_eqb arg (s "--in-place") then parse_args_go rest (set_inPlace a)
      else
        match rest with
        | v :: rest' =>
            if str_eqb arg (s "--out-dir") then parse_args_go rest' (set_outDir a v)
            else if str_eqb arg (s "--suffix") then parse_args_go rest' (set_suffix a v)
            else if str_eqb arg (s "--in") then parse_args_go rest' (push_input a v)
            else if str_eqb arg (s "--out") then parse_args_go rest' (set_output a v)
            else parse_args_go rest (push_input a arg)
        | [] => parse_args_go rest (push_input a arg)
        end
  end.

(** [parseArgs(argv)], which drops the first two entries of [argv]. *)
Definition parseArgs (argv : list str) : Args := parse_args_go (skipn 2 argv) args_init.

(** ** The start of main (lines 555-573) *)

(** [args.inPlace || Boolean(args.outDir) || Boolean(args.suffix)] *)
Definition usesBatchFlags (a : Args) : bool :=
  (inPlace a || truthy (outDir a) || truthy (suffix a))%bool.

(** Lines 556-573: the effects of an early exit, or the inputs and the
    output path the loop runs with.  [usageText] is the text of [usage()]. *)
Definition main_prelude (usageText : str) (a : Args)
    : list Effect + (list str * option str) :=
  if (help a || match inputs a with [] => true | _ => false end)%bool
  then inl [Stdout usageText; Exit (if help a then 0 else 1)]
  else if (truthy (output a)
           && (negb (Nat.eqb (List.length (inputs a)) 1) || usesBatchFlags a))%bool
  then inl [Stderr (s "`--out` can only be used with a single input and no batch flags."); Exit 1]
  else if (negb (usesBatchFlags a) && negb (truthy (output a))
           && Nat.ltb 2 (List.length (inputs a)))%bool
  then inl [Stderr (s "Multiple inputs require --in-place, --out-dir, or --suffix."); Exit 1]
  else if (negb (usesBatchFlags a) && negb (truthy (output a))
           && Nat.eqb (List.length (inputs a)) 2)%bool
  then inr ([nth 0 (inputs a) []], Some (nth 1 (inputs a) []))
  else inr (inputs a, output a).

(** [outDir.replace(/\/$/, "")] *)
Definition strip_trailing_slash (d : str) : str :=
  match rev d with
  | c :: r => if Byte.eqb c "/"%byte then rev r else d
  | [] => []
  end.

(** Lines 599-615: where the output of [inputPath] goes; [None] is stdout.
    [out] is [args.output] after line 571. *)
Definition output_target (a : Args) (out : option str) (inputPath : str) : option str :=
  if inPlace a then Some inputPath
  else if truthy (outDir a)
  then Some (strip_trailing_slash (match outDir a with Some d => d | None => [] end)
             ++ ["/"%byte] ++ replaceExtWithSrt (snd (splitDirAndFile inputPath)))
  else if truthy (suffix a)
  then Some (fst (splitDirAndFile inputPath) ++ ["/"%byte]
             ++ applySuffix (replaceExtWithSrt (snd (splitDirAndFile inputPath))) (suffix a))
  else if truthy out then out else None.

(** ** ASS documents (lines 203-250, 305-386) *)

(** [t.endsWith(p)] *)
Definition ends_with (p t : str) : bool := str_eqb (lastn (List.length p) t) p.

(** A case-insensitive match of [p] at the start of [t] (the [i] flag; for
    the ASCII patterns of the source, only ASCII letters fold to them). *)
Definition starts_with_ci (p t : str) : bool :=
  str_eqb (map to_lower (firstn (List.length p) t)) (map to_lower p).

Fixpoint contains_ci (p t : str) : bool :=
  match t with
  | [] => false
  | _ :: r => (starts_with_ci p t || contains_ci p r)%bool
  end.

(** [/^Dialogue:/m.test(t)]: at the start, or after a line terminator
    ([\n], [\r], and U+2028 and U+2029 in UTF-8). *)
Fixpoint dialogue_after_break (t : str) : bool :=
  match t with
  | [] => false
  | c :: r =>
      ((if (Byte.eqb c NL || Byte.eqb c CR)%bool then starts_with (s "Dialogue:") r else false)
       || match t with
          | e :: x :: y :: r' =>
              if (Byte.eqb e xe2 && Byte.eqb x x80 && (Byte.eqb y xa8 || Byte.eqb y xa9))%bool
              then starts_with (s "Dialogue:") r' else false
          | _ => false
          end
       || dialogue_after_break r)%bool
  end.

Definition has_dialogue_line (t : str) : bool :=
  (starts_with (s "Dialogue:") t || dialogue_after_break t)%bool.

(** [detectAssFormat(filename, content)] *)
Definition detectAssFormat (filename : option str) (content : str) : bool :=
  if (truthy filename
      && ends_with (s ".ass") (map to_lower (match filename with Some f => f | None => [] end)))%bool
  then true
  else (contains_ci (s "[Script Info]") content && has_dialogue_line content)%bool.

(** [splitAssFields(line, fieldCount)]; with [fieldCount = 0] the slices
    are [slice(0, -1)] and [slice(-1)]. *)
Definition splitAssFields (line : str) (fieldCount : nat) : list str :=
  let parts := split_on_go ","%byte line [] in
  if Nat.leb (List.length parts) fieldCount then map trim parts
  else
    let k := match fieldCount with O => (List.length parts - 1)%nat | S n => n end in
    map trim (firstn k parts) ++ [trim (join [","%byte] (skipn k parts))].

(** [parseAssStyleFormat] and [parseAssDialogueFormat] (the same code). *)
Definition parseAssFormat (line : str) : list str :=
  map trim (split_on_go ","%byte (skipn 7 line) []).

(** The last position of [key] in [format]. *)
Fixpoint last_position (key : str) (format : list str) : option nat :=
  match format with
  | [] => None
  | k :: fmt =>
      match last_position key fmt with
      | Some i => Some (S i)
      | None => if str_eqb k key then Some O else None
      end
  end.

(** [obj[key]] after [obj[format[i]] = fields[i]] for every [i]: the last
    assignment to a key wins, and [fields[i]] is undefined past the end of
    [fields]; [None] is [undefined]. *)
Definition field_value (format fields : list str) (key : str) : option str :=
  match last_position key format with
  | Some i => nth_error fields i
  | None => None
  end.

(** A [Map<string, StyleDef>]: [set] keeps the position of a present key. *)
Fixpoint map_set {V} (k : str) (v : V) (m : list (str * V)) : list (str * V) :=
  match m with
  | [] => [(k, v)]
  | (k', v') :: m' => if str_eqb k k' then (k, v) :: m' else (k', v') :: map_set k v m'
  end.

Fixpoint map_get {V} (k : str) (m : list (str * V)) : option V :=
  match m with
  | [] => None
  | (k', v) :: m' => if str_eqb k k' then Some v else map_get k m'
  end.

(** The body of the loop of [parseAssStyles] (lines 227-240). *)
Definition style_step (st : option (list str) * list (str * StyleDef)) (line : str)
    : option (list str) * list (str * StyleDef) :=
  let (format, styles) := st in
  if starts_with_ci (s "Format:") line then (Some (parseAssFormat line), styles)
  else if negb (starts_with_ci (s "Style:") line) then (format, styles)
  else match format with
  | None => (format, styles)
  | Some fmt =>
      let raw := trim (skipn 6 line) in
      let fields := splitAssFields raw (List.length fmt) in
      let get key := field_value fmt fields key in
      let style := mkStyle (get (s "Fontname")) (get (s "Fontsize")) (get (s "PrimaryColour")) in
      match get (s "Name") with
      | Some name => if truthy (Some name) then (format, map_set name style styles)
                     else (format, styles)
      | None => (format, styles)
      end
  end.

(** [parseAssStyles(lines)] *)
Definition parseAssStyles (ls : list str) : list (str * StyleDef) :=
  snd (fold_left style_step ls (None, [])).

(** The loop of lines 315-326: the section of each line decides whether its
    trimmed text goes to the style lines or the event lines.  [toLowerCase]
    is ASCII: no other character lowers into the names compared with. *)
Fixpoint ass_sections (ls : list str) (section : str) : list str * list str :=
  match ls with
  | [] => ([], [])
  | line :: rest =>
      let trimmed := trim line in
      if (starts_with (s "[") trimmed && ends_with (s "]") trimmed)%bool
      then ass_sections rest (map to_lower trimmed)
      else
        let (styleLines, eventLines) := ass_sections rest section in
        if str_eqb section (s "[v4+ styles]") then (trimmed :: styleLines, eventLines)
        else if str_eqb section (s "[events]") then (styleLines, trimmed :: eventLines)
        else (styleLines, eventLines)
  end.

(** The loop of lines 332-383 from the current event format and order on. *)
Fixpoint ass_events (omitWhiteColor : bool) (styles : list (str * StyleDef))
    (eventFormat : option (list str)) (order : Z) (ls : list str)
    : list SubtitleBlock * Z :=
  match ls with
  | [] => ([], 0)
  | line :: rest =>
      if starts_with_ci (s "Format:") line
      then ass_events omitWhiteColor styles (Some (parseAssFormat line)) order rest
      else if negb (starts_with_ci (s "Dialogue:") line)
      then ass_events omitWhiteColor styles eventFormat order rest
      else match eventFormat with
      | None => ass_events omitWhiteColor styles eventFormat order rest
      | Some fmt =>
          let raw := trim (skipn 9 line) in
          let fields := splitAssFields raw (List.length fmt) in
          let value key := match field_value fmt fields key with Some v => v | None => [] end in
          match parseAssTimestampToMs (value (s "Start")),
                parseAssTimestampToMs (value (s "End")) with
          | Some st, Some en =>
              let style := match map_get (value (s "Style")) styles with
                           | Some d => d | None => emptyStyle end in
              match ass_event_lines omitWhiteColor style (value (s "Text")) with
              | Some lineBlocks =>
                  let (bs, skipped) :=
                    ass_events omitWhiteColor styles eventFormat (order + 1) rest in
                  (mkBlock order None st en
                     (msToSrtTimestamp st ++ s " --> " ++ msToSrtTimestamp en)
                     lineBlocks None None false :: bs, skipped)
              | None =>
                  let (bs, skipped) := ass_events omitWhiteColor styles eventFormat order rest in
                  (bs, skipped + 1)
              end
          | _, _ =>
              let (bs, skipped) := ass_events omitWhiteColor styles eventFormat order rest in
              (bs, skipped + 1)
          end
      end
  end.

(** [parseAss(content, { omitWhiteColor })] *)
Definition parseAss (content : str) (omitWhiteColor : bool) : list SubtitleBlock * Z :=
  let ls := split_lines (normalize_crlf content) in
  let (styleLines, eventLines) := ass_sections ls [] in
  ass_events omitWhiteColor (parseAssStyles styleLines) None 0 eventLines.

(** ** The whole program (lines 554-632) *)

(** Lines 581-584. *)
Definition parse_file (keepWhite : bool) (inputPath inputText : str)
    : bool * list SubtitleBlock * Z :=
  let isAss := detectAssFormat (Some inputPath) inputText in
  let (blocks, skipped) := if isAss then parseAss inputText (negb keepWhite)
                           else parseSrt inputText in
  (isAss, blocks, skipped).

(** [main()] on [argv], with the file system as [readText] and
    [writeFile] (see [main_loop]) and the text of [usage()]. *)
Definition main (usageText : str) (readText : str -> str + str)
    (writeFile : str -> str -> option str) (argv : list str) : list Effect :=
  let a := parseArgs argv in
  match main_prelude usageText a with
  | inl effects => effects
  | inr (ins, out) =>
      main_loop readText (parse_file (keepWhite a)) serializeSrt (output_target a out)
        writeFile (mkOptions (args_clean a) (args_ignoreExisting a) (args_omitDefault a))
        ins 0 0
  end.

(** ** Fixtures: concrete inputs used below *)

Definition two_blocks : list SubtitleBlock := [mk 0 0 4000 "Hi"; mk 1 2000 6000 "Bye"].

Definition opts_ignore : AssignOptions := mkOptions false true true.

Definition full_active : list ActiveEntry :=
  map (fun t => mkEntry 10000 t) POSITION_TAGS.

Definition reuse_blocks : list SubtitleBlock :=
  [mk 0 0 4000 "{\an8}A"; mk 1 2000 6000 "B"].

Definition white_style : StyleDef := mkStyle None None (Some (s "&H00FFFFFF")).

Definition show_lines (x : option (list str)) : option (list string) :=
  option_map (map string_of_list_byte) x.

Definition no_break (t : str) : bool :=
  forallb (fun c => negb (Byte.eqb c NL) && negb (Byte.eqb c CR))%bool t.

Definition no_cr (t : str) : bool := forallb (fun c => negb (Byte.eqb c CR)) t.

Definition normalized_color (col : str) : str :=
  strip_amp_suffix (strip_H_prefix (trim col)).

Definition demo_read (p : str) : str + str :=
  inr (if str_eqb p (s "empty.srt") then [] else s "Hi").

Definition demo_parse (_ : str) (txt : str) : bool * list SubtitleBlock * Z :=
  (false, (if str_eqb txt [] then [] else [mk 0 1000 2000 "Hi"]), 0).

Definition rt_blocks : list SubtitleBlock :=
  [mkBlock 0 None 2000 3000 (s "00:00:02,000 --> 00:00:03,000") [s "World"] None None false;
   mkBlock 1 (Some 7) 1000 1500 (s "00:00:01,000 --> 00:00:01,500") [s "Hello"; s "  there"]
     None None false].

Definition suffix_args : Args :=
  parseArgs [s "bun"; s "index.ts"; s "--suffix"; s ".fixed"; s "a.ass"].

Definition outdir_args : Args :=
  parseArgs [s "bun"; s "index.ts"; s "--out-dir"; s "out/"; s "a.ass"].

Definition ok_inputs : list str := [s "a.srt"; s "b.srt"].

(** ** Auxiliary definitions *)

(** Text made of ASCII bytes only: there JavaScript's [trim] and [\s] see
    exactly the white space of [is_space]. *)
Definition is_ascii (t : str) : bool := forallb (fun c => (Byte.to_N c <? 128)%N) t.

(** A rich-format file with one good event and one with a bad start. *)
Definition ass_demo : str :=
  join [NL] [s "[Events]"; s "Format: Layer, Start, End, Style, Text";
             s "Dialogue: 0,0:00:01.5,0:00:02.05,Default,Hello, world";
             s "Dialogue: 0,bad,0:00:03.00,Default,Skipped"].

(** bytes that neither [\s] nor the arrow can start with *)
Definition plain (c : byte) : bool := (negb (is_space c) && negb (Byte.eqb c "-"%byte))%bool.

(** A block that [serializeSrt] writes so that [parseSrt] reads it back:
    a canonical timing line, an index if any in [0, 2^53) (the integers
    that a JavaScript number holds exactly and [String] writes as plain
    digits), and non-empty text lines without line breaks, the last ending
    in an ASCII byte that is not white space. *)
Definition srt_block_ok (b : SubtitleBlock) : Prop :=
  parseTimingLine (timingLine b) = Some (startMs b, endMs b, timingLine b)
  /\ (forall n, index b = Some n -> 0 <= n < 2 ^ 53)
  /\ lines b <> []
  /\ Forall (fun l => l <> [] /\ no_break l = true) (lines b)
  /\ exists q z, last (lines b) [] = q ++ [z] /\ is_space z = false /\ (Byte.to_N z < 128)%N.

(** Lines that [join "\n"] keeps apart: at least one, none empty, none
    with a line break. *)
Definition lines_ok (ls : list str) : Prop :=
  ls <> [] /\ Forall (fun l => l <> [] /\ no_break l = true) ls.

(** The lines [serializeSrt] writes for the block at position [k]. *)
Definition rendered_lines (p : nat * SubtitleBlock) : list str :=
  let '(k, b) := p in
  [String_of_Z (match index b with Some n => n | None => Z.of_nat k + 1 end); timingLine b]
  ++ lines b.

(** The arguments [parseArgs] compares with. *)
Definition flag_names : list str :=
  [s "--help"; s "-h"; s "--clean"; s "--ignore-existing"; s "--omit-default";
   s "--keep-default"; s "--keep-white"; s "--in-place"; s "--out-dir"; s "--suffix";
   s "--in"; s "--out"].

Definition is_flag_name (arg : str) : bool := existsb (str_eqb arg) flag_names.

(** What [parseAss] gives every block it makes. *)
Definition ass_block_ok (b : SubtitleBlock) : Prop :=
  timingLine b = msToSrtTimestamp (startMs b) ++ s " --> " ++ msToSrtTimestamp (endMs b)
  /\ 0 <= startMs b /\ 0 <= endMs b
  /\ index b = None /\ assignedTag b = None /\ existingTag b = None
  /\ keepExisting b = false.

(** The fields of a block that carry its order and timing. *)
Definition timing_of (b : SubtitleBlock) : Z * option Z * Z * Z * str :=
  (originalOrder b, index b, startMs b, endMs b, timingLine b).

Definition is_exit (e : Effect) : bool := match e with Exit _ => true | _ => false end.

(** * Proofs *)

(** ** Sanity checks on small inputs *)

Lemma str_eqb_spec (a b : str) : str_eqb a b = true <-> a = b.
Proof.
  unfold str_eqb; destruct (list_eq_dec Byte.byte_eq_dec a b); split;
    intros; congruence.
Qed.


Example tags_two :
  tags_of (assignSlots opts_default [mk 0 0 4000 "Hi"; mk 1 2000 6000 "Bye"])
  = ([Some "\an2"; Some "\an8"])%string.
Proof. vm_compute. reflexivity. Qed.

Example tags_six :
  tags_of (assignSlots opts_default six_blocks)
  = ([Some "\an2"; Some "\an8"; Some "\an5"; Some "\an4"; Some "\an6"; Some "\an6"])%string.
Proof. vm_compute. reflexivity. Qed.

Example lines_six :
  map (map string_of_list_byte) (map lines (assignSlots opts_default six_blocks))
  = ([["A"]; ["{\an8}B"]; ["{\an5}C"]; ["{\an4}D"]; ["{\an6}E"]; ["{\an6}F"]])%string.
Proof. vm_compute. reflexivity. Qed.

Example strip_ex :
  string_of_list_byte (stripAllTags (s "a{\an1}b{\an0}{{\an9}}c")) = "ab{\an0}{}c"%string.
Proof. vm_compute. reflexivity. Qed.

(** ** The sort: a permutation, sorted by start time *)

Section SortFacts.
Variable A : Type.
Variable cmp : A -> A -> Z.
Variable key : A -> Z.
Hypothesis cmp_lt : forall x y, cmp x y < 0 -> key x <= key y.
Hypothesis cmp_ge : forall x y, ~ cmp x y < 0 -> key y <= key x.

Lemma insert_by_perm x l : Permutation (insert_by cmp x l) (x :: l).
Proof.
  induction l as [|y l IH]; simpl; [auto|].
  destruct (cmp x y <? 0); [auto|].
  rewrite IH. apply perm_swap.
Qed.

Lemma sort_by_perm_acc l acc :
  Permutation (fold_left (fun acc x => insert_by cmp x acc) l acc) (rev l ++ acc).
Proof.
  revert acc; induction l as [|x l IH]; intros acc; simpl; [auto|].
  rewrite IH, insert_by_perm, <- app_assoc. simpl.
  apply Permutation_app_head. auto.
Qed.

Lemma sort_by_perm l : Permutation (sort_by cmp l) l.
Proof.
  unfold sort_by. rewrite sort_by_perm_acc, app_nil_r.
  symmetry. apply Permutation_rev.
Qed.

Lemma insert_by_sorted x l :
  Sorted (key_le key) l -> Sorted (key_le key) (insert_by cmp x l).
Proof.
  induction 1 as [|y l Hs IH Hhd]; simpl.
  - repeat constructor.
  - destruct (cmp x y <? 0) eqn:E.
    + apply Z.ltb_lt in E. constructor; [constructor; auto|].
      constructor. apply cmp_lt; auto.
    + apply Z.ltb_ge in E.
      assert (Hyx : key y <= key x) by (apply cmp_ge; lia).
      constructor; [exact IH|].
      destruct l as [|z l]; simpl.
      * constructor. exact Hyx.
      * inversion Hhd; subst.
        destruct (cmp x z <? 0); constructor; auto.
Qed.

Lemma sort_by_sorted l : Sorted (key_le key) (sort_by cmp l).
Proof.
  unfold sort_by.
  assert (H : forall acc, Sorted (key_le key) acc ->
    Sorted (key_le key) (fold_left (fun acc x => insert_by cmp x acc) l acc)).
  { induction l as [|x l IH]; intros acc Hacc; simpl; auto.
    apply IH, insert_by_sorted, Hacc. }
  apply H. constructor.
Qed.

Lemma sort_by_strongly_sorted l : StronglySorted (key_le key) (sort_by cmp l).
Proof.
  apply Sorted_StronglySorted; [|apply sort_by_sorted].
  intros x y z; unfold key_le; lia.
Qed.
End SortFacts.

Lemma working_perm bs : Permutation (working bs) (indexed bs).
Proof. apply sort_by_perm. Qed.

Lemma working_sorted bs :
  StronglySorted (fun a b => startMs (snd a) <= startMs (snd b)) (working bs).
Proof.
  apply (sort_by_strongly_sorted _ _ (fun a => startMs (snd a))).
  - intros x y; unfold sweep_cmp.
    destruct (startMs (snd x) =? startMs (snd y)) eqn:E; simpl;
      [apply Z.eqb_eq in E|]; lia.
  - intros x y; unfold sweep_cmp.
    destruct (startMs (snd x) =? startMs (snd y)) eqn:E; simpl;
      [apply Z.eqb_eq in E|]; lia.
Qed.

(** ** Positions in the caller's array *)

Lemma indexed_from_fst {A} k (l : list A) :
  map fst (indexed_from k l) = seq k (List.length l).
Proof.
  revert k; induction l as [|x l IH]; intros k; simpl; [auto|].
  f_equal. apply IH.
Qed.

Lemma indexed_nodup {A} (l : list A) : NoDup (map fst (indexed l)).
Proof. unfold indexed. rewrite indexed_from_fst. apply seq_NoDup. Qed.

Lemma In_indexed_from {A} k (l : list A) i x :
  In (i, x) (indexed_from k l) <-> (k <= i)%nat /\ nth_error l (i - k) = Some x.
Proof.
  revert k; induction l as [|y l IH]; intros k; simpl.
  - split; [tauto|]. intros [_ H]. destruct (i - k)%nat; discriminate.
  - rewrite IH. split.
    + intros [H|[H1 H2]].
      * inversion H; subst. rewrite Nat.sub_diag. auto.
      * split; [lia|]. replace (i - k)%nat with (S (i - S k)) by lia. exact H2.
    + intros [H1 H2].
      destruct (Nat.eq_dec i k) as [->|Hne].
      * rewrite Nat.sub_diag in H2. simpl in H2. inversion H2; subst. auto.
      * right. split; [lia|]. replace (i - k)%nat with (S (i - S k)) in H2 by lia.
        exact H2.
Qed.

Lemma In_indexed {A} (l : list A) i x :
  In (i, x) (indexed l) <-> nth_error l i = Some x.
Proof.
  unfold indexed. rewrite In_indexed_from, Nat.sub_0_r. split; [tauto|].
  intros H; split; [lia|exact H].
Qed.

Lemma nth_error_indexed_from {A} k (l : list A) i :
  nth_error (indexed_from k l) i = option_map (fun x => (k + i, x)%nat) (nth_error l i).
Proof.
  revert k i; induction l as [|x l IH]; intros k [|i]; simpl; auto.
  - rewrite Nat.add_0_r. reflexivity.
  - rewrite IH. destruct (nth_error l i); simpl; auto. do 2 f_equal. lia.
Qed.

Lemma length_indexed_from {A} k (l : list A) :
  List.length (indexed_from k l) = List.length l.
Proof. revert k; induction l; intros k; simpl; auto. Qed.

Lemma working_nodup bs : NoDup (map fst (working bs)).
Proof.
  eapply Permutation_NoDup; [|apply (indexed_nodup bs)].
  apply Permutation_map. symmetry. apply working_perm.
Qed.

Lemma In_working bs i x : In (i, x) (working bs) <-> nth_error bs i = Some x.
Proof.
  rewrite <- In_indexed. split; apply Permutation_in;
    [|symmetry]; apply working_perm.
Qed.

(** ** Lookup of the mutated objects *)

Lemma lookup_app_skip i l1 l2 :
  ~ In i (map fst l1) -> lookup i (l1 ++ l2) = lookup i l2.
Proof.
  induction l1 as [|[j b] l1 IH]; simpl; intros H; auto.
  destruct (Nat.eqb_spec i j); [subst; tauto|]. apply IH. tauto.
Qed.

Lemma lookup_hit i b l1 l2 :
  ~ In i (map fst l1) -> lookup i (l1 ++ (i, b) :: l2) = Some b.
Proof.
  intros H. rewrite lookup_app_skip by exact H. simpl.
  rewrite Nat.eqb_refl. reflexivity.
Qed.

Lemma lookup_In i l b : lookup i l = Some b -> In (i, b) l.
Proof.
  induction l as [|[j c] l IH]; simpl; [discriminate|].
  destruct (Nat.eqb_spec i j); intros H; [inversion H; subst; auto|auto].
Qed.

Lemma lookup_found i l b : In (i, b) l -> exists c, lookup i l = Some c.
Proof.
  induction l as [|[j c] l IH]; simpl; [tauto|].
  destruct (Nat.eqb_spec i j); intros [H|H]; eauto.
  inversion H; subst; tauto.
Qed.

(** ** The sweep *)

Lemma sweep_step_shape o act b :
  exists t, sweep_step o act b
    = (evict (startMs b) act ++ [mkEntry (endMs b) t], snd (sweep_step o act b))
    /\ assignedTag (snd (sweep_step o act b)) = Some t.
Proof.
  unfold sweep_step.
  destruct (extractLeadingTag (hd [] (lines b))) as [t|];
    [destruct (negb (clean o) && ignoreExisting o)%bool|];
    destruct (clean o); simpl; eexists; split; reflexivity.
Qed.

Lemma sweep_step_not_reused o act b :
  reused o b = false ->
  assignedTag (snd (sweep_step o act b))
  = Some (choose_tag (map e_tag (evict (startMs b) act))).
Proof.
  unfold reused, sweep_step. intros H.
  destruct (extractLeadingTag (hd [] (lines b))) as [t|];
    [destruct (negb (clean o) && ignoreExisting o)%bool eqn:E|];
    simpl in H; try rewrite andb_true_r in H; try congruence;
    destruct (clean o); reflexivity.
Qed.

Lemma sweep_step_reused o act b t :
  clean o = false -> ignoreExisting o = true ->
  extractLeadingTag (hd [] (lines b)) = Some t ->
  sweep_step o act b
  = (evict (startMs b) act ++ [mkEntry (endMs b) t],
     set_keepExisting (set_assignedTag (set_existingTag b (Some t)) t)).
Proof.
  intros Hc Hi Ht. unfold sweep_step. rewrite Ht, Hc, Hi. reflexivity.
Qed.

Lemma sweep_app o act w1 w2 :
  sweep o act (w1 ++ w2)
  = let (a1, r1) := sweep o act w1 in
    let (a2, r2) := sweep o a1 w2 in (a2, r1 ++ r2).
Proof.
  revert act; induction w1 as [|[i b] w1 IH]; intros act; simpl.
  - destruct (sweep o act w2); reflexivity.
  - destruct (sweep_step o act b) as [a' b'].
    rewrite IH. destruct (sweep o a' w1) as [a1 r1].
    destruct (sweep o a1 w2) as [a2 r2]. reflexivity.
Qed.

Lemma sweep_fst o act w : map fst (snd (sweep o act w)) = map fst w.
Proof.
  revert act; induction w as [|[i b] w IH]; intros act; simpl; auto.
  destruct (sweep_step o act b) as [a' b'].
  specialize (IH a'). destruct (sweep o a' w) as [a'' r]. simpl in *.
  rewrite IH. reflexivity.
Qed.

Lemma sweep_result o act w i b' :
  In (i, b') (snd (sweep o act w)) ->
  exists act' b, In (i, b) w /\ b' = snd (sweep_step o act' b).
Proof.
  revert act; induction w as [|[j b] w IH]; intros act; simpl; [tauto|].
  destruct (sweep_step o act b) as [a' c] eqn:E.
  specialize (IH a'). destruct (sweep o a' w) as [a'' r]. simpl.
  intros [H|H].
  - inversion H; subst. exists act, b. rewrite E. auto.
  - destruct (IH H) as (act' & b0 & H1 & H2). exists act', b0. auto.
Qed.

(** An entry of the active list survives every block that starts before it
    ends: eviction only drops entries with [endMs <= startMs]. *)
Lemma sweep_keeps_entry o act w e :
  In e act ->
  (forall i b, In (i, b) w -> startMs b < e_endMs e) ->
  In e (fst (sweep o act w)).
Proof.
  revert act; induction w as [|[j b] w IH]; intros act Hin Hw; simpl; auto.
  destruct (sweep_step_shape o act b) as (t & Hs & _).
  rewrite Hs. specialize (IH (evict (startMs b) act ++ [mkEntry (endMs b) t])).
  destruct (sweep o _ w) as [a'' r] eqn:E. simpl in *.
  apply IH.
  - apply in_or_app. left. unfold evict. apply filter_In. split; auto.
    specialize (Hw j b (or_introl eq_refl)).
    destruct (e_endMs e <=? startMs b) eqn:F; [apply Z.leb_le in F; lia|reflexivity].
  - intros i c H. apply (Hw i c). auto.
Qed.

Lemma sweep_split o act w1 i b w2 :
  sweep o act (w1 ++ (i, b) :: w2)
  = (fst (sweep o (fst (sweep_step o (fst (sweep o act w1)) b)) w2),
     snd (sweep o act w1)
       ++ (i, snd (sweep_step o (fst (sweep o act w1)) b))
       :: snd (sweep o (fst (sweep_step o (fst (sweep o act w1)) b)) w2)).
Proof.
  rewrite sweep_app. destruct (sweep o act w1) as [a1 r1]. simpl.
  destruct (sweep_step o a1 b) as [a2 b2]. simpl.
  destruct (sweep o a2 w2) as [a3 r3]. reflexivity.
Qed.

Lemma finalize_assignedTag o b : assignedTag (finalize o b) = assignedTag b.
Proof.
  unfold finalize. destruct (keepExisting b); [reflexivity|].
  destruct (lines b) as [|l ls]; [reflexivity|].
  destruct (omitDefault o && _)%bool; [reflexivity|].
  destruct l as [|c l]; [reflexivity|]. destruct (Byte.eqb c _); reflexivity.
Qed.

Lemma nth_error_assignSlots o bs i :
  nth_error (assignSlots o bs) i
  = option_map (fun b => finalize o
        (match lookup i (snd (sweep o [] (working bs))) with
         | Some b' => b' | None => b end)) (nth_error bs i).
Proof.
  unfold assignSlots. rewrite nth_error_map. unfold indexed.
  rewrite nth_error_indexed_from. destruct (nth_error bs i); reflexivity.
Qed.

Lemma nodup_fst_skip (w1 w2 : list (nat * SubtitleBlock)) i b :
  NoDup (map fst (w1 ++ (i, b) :: w2)) -> ~ In i (map fst w1).
Proof.
  rewrite map_app. simpl. intros H Hin.
  apply NoDup_remove_2 in H. apply H, in_or_app. auto.
Qed.

(** The block at a position of the working list ends up, in the caller's
    array, as the sweep step made it at that point, then finalized. *)
Lemma assignSlots_at o bs w1 i b w2 :
  working bs = w1 ++ (i, b) :: w2 ->
  nth_error (assignSlots o bs) i
  = Some (finalize o (snd (sweep_step o (fst (sweep o [] w1)) b))).
Proof.
  intros Hw.
  assert (Hb : nth_error bs i = Some b).
  { apply In_working. rewrite Hw. apply in_or_app. simpl. auto. }
  rewrite nth_error_assignSlots, Hb. simpl. rewrite Hw, sweep_split. simpl.
  rewrite lookup_hit; [reflexivity|].
  rewrite sweep_fst. apply (nodup_fst_skip w1 w2 i b). rewrite <- Hw.
  apply working_nodup.
Qed.

Lemma in_two {A} (l : list A) x y :
  In x l -> In y l -> x <> y ->
  exists l1 l2 l3, l = l1 ++ x :: l2 ++ y :: l3 \/ l = l1 ++ y :: l2 ++ x :: l3.
Proof.
  intros Hx Hy Hne.
  destruct (in_split x l Hx) as (a & b & ->).
  apply in_app_or in Hy. destruct Hy as [Hy|[Hy|Hy]].
  - destruct (in_split y a Hy) as (c & d & ->).
    exists c, d, b. right. rewrite <- app_assoc. reflexivity.
  - congruence.
  - destruct (in_split y b Hy) as (c & d & ->).
    exists a, c, d. left. reflexivity.
Qed.

Lemma strongly_sorted_before {A} (R : A -> A -> Prop) l1 a l2 :
  StronglySorted R (l1 ++ a :: l2) -> forall z, In z l1 -> R z a.
Proof.
  induction l1 as [|x l1 IH]; simpl; [tauto|].
  intros H z [<-|Hz]; apply StronglySorted_inv in H; destruct H as [H1 H2].
  - rewrite Forall_forall in H2. apply H2, in_or_app. simpl. auto.
  - apply IH; auto.
Qed.

Lemma first_free_unused used t : first_free used = Some t -> ~ In t used.
Proof.
  unfold first_free. intros H Hin.
  apply find_some in H. destruct H as [_ H].
  apply negb_true_iff in H.
  assert (existsb (str_eqb t) used = true) as Hc.
  { apply existsb_exists. exists t. split; [exact Hin|]. apply str_eqb_spec. reflexivity. }
  congruence.
Qed.

Lemma choose_tag_avoids used t :
  In t used -> choose_tag used <> t \/ choose_tag used = LAST_TAG.
Proof.
  unfold choose_tag. destruct (first_free used) as [u|] eqn:E; [|auto].
  left. intros ->. apply (first_free_unused used t E). assumption.
Qed.

(** A block earlier in the sweep whose end lies after the start of a later
    block still holds its tag in the active list when the later block is
    processed. *)
Lemma earlier_tag_in_use o w1 i X w2 j Y w3 :
  StronglySorted (fun a b => startMs (snd a) <= startMs (snd b))
    (w1 ++ (i, X) :: w2 ++ (j, Y) :: w3) ->
  startMs Y < endMs X ->
  exists t, assignedTag (snd (sweep_step o (fst (sweep o [] w1)) X)) = Some t
    /\ In t (map e_tag (evict (startMs Y) (fst (sweep o [] (w1 ++ (i, X) :: w2))))).
Proof.
  intros Hs Hov.
  destruct (sweep_step_shape o (fst (sweep o [] w1)) X) as (t & Hst & Ht).
  exists t. split; [exact Ht|].
  assert (Hbefore : forall k z, In (k, z) w2 -> startMs z <= startMs Y).
  { intros k z Hz.
    apply (strongly_sorted_before _ ((w1 ++ (i, X) :: w2)) (j, Y) w3
             ltac:(rewrite <- app_assoc; exact Hs) (k, z)).
    apply in_or_app. right. right. exact Hz. }
  assert (Hin : In (mkEntry (endMs X) t) (fst (sweep o [] (w1 ++ (i, X) :: w2)))).
  { rewrite sweep_split. simpl. apply sweep_keeps_entry.
    - rewrite Hst. simpl. apply in_or_app. right. simpl. auto.
    - intros k z Hz. simpl. specialize (Hbefore k z Hz). lia. }
  apply in_map_iff. exists (mkEntry (endMs X) t). split; [reflexivity|].
  unfold evict. apply filter_In. split; [exact Hin|]. simpl.
  destruct (endMs X <=? startMs Y) eqn:F; [apply Z.leb_le in F; lia|reflexivity].
Qed.

Lemma ordered_pair_tags o bs w1 i X w2 j Y w3 X' Y' :
  working bs = w1 ++ (i, X) :: w2 ++ (j, Y) :: w3 ->
  startMs Y < endMs X ->
  reused o Y = false ->
  nth_error (assignSlots o bs) i = Some X' ->
  nth_error (assignSlots o bs) j = Some Y' ->
  assignedTag X' <> assignedTag Y'
  \/ (assignedTag X' = Some LAST_TAG /\ assignedTag Y' = Some LAST_TAG).
Proof.
  intros Hw Hov Hr HX HY.
  rewrite (assignSlots_at o bs w1 i X (w2 ++ (j, Y) :: w3) Hw) in HX.
  assert (Hw' : working bs = (w1 ++ (i, X) :: w2) ++ (j, Y) :: w3)
    by (rewrite Hw, <- app_assoc; reflexivity).
  rewrite (assignSlots_at o bs _ j Y w3 Hw') in HY.
  inversion HX; inversion HY; subst; clear HX HY.
  rewrite !finalize_assignedTag.
  pose proof (working_sorted bs) as Hs. rewrite Hw in Hs.
  destruct (earlier_tag_in_use o w1 i X w2 j Y w3 Hs Hov) as (t & Ht & Hin).
  rewrite Ht, sweep_step_not_reused by exact Hr.
  destruct (choose_tag_avoids _ t Hin) as [H|H].
  - left. intros E. inversion E. congruence.
  - rewrite H. destruct (list_eq_dec Byte.byte_eq_dec t LAST_TAG) as [->|Hne].
    + right. auto.
    + left. intros E. inversion E. congruence.
Qed.

(** ** C1: overlapping blocks and their tags *)

(** C1 (counterexample): six blocks all spanning [0,10000], none carrying a
    tag: the fifth and sixth overlap, neither reuses an existing tag, and
    both are assigned [\an6]. *)
Lemma C1_counterexample :
  ~ (forall o bs i j A B A' B',
       i <> j -> nth_error bs i = Some A -> nth_error bs j = Some B ->
       startMs A < endMs B -> startMs B < endMs A ->
       reused o A = false -> reused o B = false ->
       nth_error (assignSlots o bs) i = Some A' ->
       nth_error (assignSlots o bs) j = Some B' ->
       assignedTag A' <> assignedTag B').
Proof.
  intros H.
  apply (H opts_default six_blocks 4%nat 5%nat (mk 4 0 10000 "E") (mk 5 0 10000 "F")
           (nth 4 (assignSlots opts_default six_blocks) (mk 0 0 0 ""))
           (nth 5 (assignSlots opts_default six_blocks) (mk 0 0 0 ""))); vm_compute;
    try reflexivity; try discriminate; congruence.
Qed.

(** C1 (amended): two blocks whose time ranges overlap, neither of which
    reuses its existing tag, are assigned different tags, except when both
    end up with the last palette entry [\an6] (the fallback taken when all
    five palette tags are in use). *)
Theorem C1_overlap_distinct_tags o bs i j A B A' B' :
  i <> j -> nth_error bs i = Some A -> nth_error bs j = Some B ->
  startMs A < endMs B -> startMs B < endMs A ->
  reused o A = false -> reused o B = false ->
  nth_error (assignSlots o bs) i = Some A' ->
  nth_error (assignSlots o bs) j = Some B' ->
  assignedTag A' <> assignedTag B'
  \/ (assignedTag A' = Some LAST_TAG /\ assignedTag B' = Some LAST_TAG).
Proof.
  intros Hij HA HB Hab Hba HrA HrB HA' HB'.
  apply In_working in HA, HB.
  assert (Hne : (i, A) <> (j, B)) by congruence.
  destruct (in_two _ _ _ HA HB Hne) as (w1 & w2 & w3 & [Hw|Hw]).
  - exact (ordered_pair_tags o bs w1 i A w2 j B w3 A' B' Hw Hba HrB HA' HB').
  - destruct (ordered_pair_tags o bs w1 j B w2 i A w3 B' A' Hw Hab HrA HB' HA')
      as [H|[H1 H2]].
    + left. auto.
    + right. auto.
Qed.

(** C1: the theorem at the two-block example of the spec. *)
Lemma C1_witness :
  assignedTag (nth 0 (assignSlots opts_default two_blocks) (mk 0 0 0 ""))
    <> assignedTag (nth 1 (assignSlots opts_default two_blocks) (mk 0 0 0 ""))
  \/ (assignedTag (nth 0 (assignSlots opts_default two_blocks) (mk 0 0 0 "")) = Some LAST_TAG
      /\ assignedTag (nth 1 (assignSlots opts_default two_blocks) (mk 0 0 0 "")) = Some LAST_TAG).
Proof.
  apply (C1_overlap_distinct_tags opts_default two_blocks 0%nat 1%nat
           (mk 0 0 4000 "Hi") (mk 1 2000 6000 "Bye")); vm_compute;
    try reflexivity; try discriminate.
Defined.

(** ** C4: the fallback when all five palette tags are in use *)

Lemma first_free_full used :
  (forall t, In t POSITION_TAGS -> In t used) -> first_free used = None.
Proof.
  intros Hall. destruct (first_free used) as [u|] eqn:E; [|reflexivity].
  exfalso. pose proof (first_free_unused used u E) as Hn.
  unfold first_free in E. apply find_some in E. destruct E as [Hu _].
  apply Hn, Hall, Hu.
Qed.

(** C4 (counterexample): under ignore-existing, a block whose first line
    carries [{\an1}] is processed while all five palette tags are in use;
    it keeps [\an1] instead of receiving the last palette entry. *)
Lemma C4_counterexample :
  ~ (forall o act b,
       (forall t, In t POSITION_TAGS -> In t (map e_tag (evict (startMs b) act))) ->
       assignedTag (snd (sweep_step o act b)) = Some LAST_TAG).
Proof.
  intros H.
  specialize (H opts_ignore full_active (mk 5 0 10000 "{\an1}F")).
  vm_compute in H.
  assert (Hall : forall t, In t POSITION_TAGS ->
            In t (map e_tag (evict 0 full_active))).
  { intros t Ht. vm_compute. vm_compute in Ht. tauto. }
  specialize (H Hall). discriminate H.
Qed.

(** C4 (amended): when a block that does not keep its existing tag (the
    ignore-existing reuse of line 476) is processed while every one of the
    five palette tags is in use by the active list, it is assigned the last
    palette entry [\an6]; among six blocks all spanning [0,10000] the first
    five receive the five palette tags in order and the sixth [\an6]. *)
Theorem C4_full_palette_fallback o act b :
  reused o b = false ->
  (forall t, In t POSITION_TAGS -> In t (map e_tag (evict (startMs b) act))) ->
  assignedTag (snd (sweep_step o act b)) = Some LAST_TAG
  /\ LAST_TAG = s "\an6"
  /\ tags_of (assignSlots opts_default six_blocks)
     = ([Some "\an2"; Some "\an8"; Some "\an5"; Some "\an4"; Some "\an6"; Some "\an6"])%string.
Proof.
  intros Hr Hall. split; [|split; vm_compute; reflexivity].
  rewrite sweep_step_not_reused by exact Hr.
  unfold choose_tag. rewrite first_free_full by exact Hall. reflexivity.
Qed.

(** C4: the theorem on the sixth block of [six_blocks], with the five
    palette tags held by the first five. *)
Lemma C4_witness :
  assignedTag (snd (sweep_step opts_default full_active (mk 5 0 10000 "F")))
    = Some LAST_TAG
  /\ LAST_TAG = s "\an6"
  /\ tags_of (assignSlots opts_default six_blocks)
     = ([Some "\an2"; Some "\an8"; Some "\an5"; Some "\an4"; Some "\an6"; Some "\an6"])%string.
Proof.
  apply C4_full_palette_fallback.
  - vm_compute. reflexivity.
  - intros t Ht. vm_compute. vm_compute in Ht. tauto.
Defined.

(** ** C5: reuse of an existing tag under ignore-existing *)

(** C5: with clean off and ignore-existing on, a block whose first line
    starts with a tag marker gets that tag verbatim as [assignedTag], gets
    [keepExisting], keeps its lines, and pushes [(endMs, tag)] onto the
    active list; a later block of the sweep that overlaps it finds the tag
    in use, so the palette scan does not return it. *)
Theorem C5_reuse_reserves_tag o bs w1 i X w2 j Y w3 t :
  clean o = false -> ignoreExisting o = true ->
  extractLeadingTag (hd [] (lines X)) = Some t ->
  working bs = w1 ++ (i, X) :: w2 ++ (j, Y) :: w3 ->
  startMs X < endMs Y -> startMs Y < endMs X ->
  fst (sweep_step o (fst (sweep o [] w1)) X)
    = evict (startMs X) (fst (sweep o [] w1)) ++ [mkEntry (endMs X) t]
  /\ (forall X', nth_error (assignSlots o bs) i = Some X' ->
        assignedTag X' = Some t /\ keepExisting X' = true /\ lines X' = lines X)
  /\ first_free (map e_tag (evict (startMs Y) (fst (sweep o [] (w1 ++ (i, X) :: w2)))))
     <> Some t.
Proof.
  intros Hc Hi Ht Hw _ Hov.
  split; [|split].
  - rewrite (sweep_step_reused o _ X t Hc Hi Ht). reflexivity.
  - intros X' HX. rewrite (assignSlots_at o bs w1 i X _ Hw) in HX.
    rewrite (sweep_step_reused o _ X t Hc Hi Ht) in HX. simpl in HX.
    inversion HX; subst. unfold finalize. simpl. auto.
  - pose proof (working_sorted bs) as Hs. rewrite Hw in Hs.
    destruct (earlier_tag_in_use o w1 i X w2 j Y w3 Hs Hov) as (t' & Ht' & Hin).
    rewrite (sweep_step_reused o _ X t Hc Hi Ht) in Ht'. simpl in Ht'.
    inversion Ht'; subst t'.
    intros E. apply (first_free_unused _ t E Hin).
Qed.

(** C5: the theorem on a tagged block followed by an overlapping one. *)
Lemma C5_witness :
  fst (sweep_step opts_ignore (fst (sweep opts_ignore [] [])) (mk 0 0 4000 "{\an8}A"))
    = evict 0 (fst (sweep opts_ignore [] [])) ++ [mkEntry 4000 (s "\an8")]
  /\ (forall X', nth_error (assignSlots opts_ignore reuse_blocks) 0 = Some X' ->
        assignedTag X' = Some (s "\an8") /\ keepExisting X' = true
        /\ lines X' = lines (mk 0 0 4000 "{\an8}A"))
  /\ first_free (map e_tag (evict 2000
        (fst (sweep opts_ignore [] ([] ++ (0%nat, mk 0 0 4000 "{\an8}A") :: [])))))
     <> Some (s "\an8").
Proof.
  apply (C5_reuse_reserves_tag opts_ignore reuse_blocks [] 0%nat (mk 0 0 4000 "{\an8}A")
           [] 1%nat (mk 1 2000 6000 "B") []);
    vm_compute; reflexivity.
Defined.

(** ** C6: round trip under ignore-existing *)

Lemma assignSlots_nth o bs i A :
  nth_error bs i = Some A ->
  exists act, nth_error (assignSlots o bs) i = Some (finalize o (snd (sweep_step o act A))).
Proof.
  intros HA. apply In_working in HA.
  destruct (in_split _ _ HA) as (w1 & w2 & Hw).
  exists (fst (sweep o [] w1)). apply (assignSlots_at o bs w1 i A w2 Hw).
Qed.

(** C6: with ignore-existing on, in the mode where the resolver reuses
    existing tags (clean off, line 476), when every block's first line
    starts with a tag marker, the resolver leaves every block's text lines
    unchanged and assigns each block the tag of its first line, so its tag
    is unchanged too. The claim's non-overlap condition is not needed. *)
Theorem C6_ignore_existing_roundtrip o bs :
  clean o = false -> ignoreExisting o = true ->
  Forall (fun b => is_some (extractLeadingTag (hd [] (lines b))) = true) bs ->
  map lines (assignSlots o bs) = map lines bs
  /\ map assignedTag (assignSlots o bs)
     = map (fun b => extractLeadingTag (hd [] (lines b))) bs.
Proof.
  intros Hc Hi Hall.
  assert (Hat : forall i A, nth_error bs i = Some A ->
    exists A', nth_error (assignSlots o bs) i = Some A'
      /\ lines A' = lines A /\ assignedTag A' = extractLeadingTag (hd [] (lines A))).
  { intros i A HA.
    assert (HtA : is_some (extractLeadingTag (hd [] (lines A))) = true).
    { rewrite Forall_forall in Hall. apply Hall. eapply nth_error_In. exact HA. }
    destruct (extractLeadingTag (hd [] (lines A))) as [t|] eqn:Et; [|discriminate].
    destruct (assignSlots_nth o bs i A HA) as (act & H).
    rewrite (sweep_step_reused o act A t Hc Hi Et) in H. simpl in H.
    eexists. split; [exact H|]. unfold finalize. simpl. auto. }
  split; apply nth_error_ext; intros i; rewrite !nth_error_map;
    destruct (nth_error bs i) as [A|] eqn:HA.
  - destruct (Hat i A HA) as (A' & H1 & H2 & _). rewrite H1. simpl. congruence.
  - rewrite nth_error_assignSlots, HA. reflexivity.
  - destruct (Hat i A HA) as (A' & H1 & _ & H3). rewrite H1. simpl. congruence.
  - rewrite nth_error_assignSlots, HA. reflexivity.
Qed.

(** C6: the theorem on two tagged, back-to-back blocks. *)
Lemma C6_witness :
  map lines (assignSlots opts_ignore [mk 0 0 1000 "{\an8}A"; mk 1 1000 2000 "{\an2}B"])
  = map lines [mk 0 0 1000 "{\an8}A"; mk 1 1000 2000 "{\an2}B"]
  /\ map assignedTag (assignSlots opts_ignore [mk 0 0 1000 "{\an8}A"; mk 1 1000 2000 "{\an2}B"])
     = map (fun b => extractLeadingTag (hd [] (lines b)))
           [mk 0 0 1000 "{\an8}A"; mk 1 1000 2000 "{\an2}B"].
Proof.
  apply C6_ignore_existing_roundtrip; [reflexivity|reflexivity|].
  vm_compute. repeat constructor.
Defined.

(** ** C7: the resolver is total *)

(** C7: for every block list (zero and negative durations included) and
    every options record, [assignSlots] returns the whole array, one block
    per input block, each with an assigned tag. *)
Theorem C7_assignSlots_total o bs :
  List.length (assignSlots o bs) = List.length bs
  /\ Forall (fun b => exists t, assignedTag b = Some t) (assignSlots o bs).
Proof.
  split.
  - unfold assignSlots, indexed. rewrite length_map, length_indexed_from. reflexivity.
  - apply Forall_forall. intros b Hb.
    destruct (In_nth_error _ _ Hb) as (i & Hi).
    rewrite nth_error_assignSlots in Hi.
    destruct (nth_error bs i) as [A|] eqn:HA; [|discriminate].
    destruct (assignSlots_nth o bs i A HA) as (act & H).
    rewrite nth_error_assignSlots, HA in H. simpl in Hi, H. rewrite Hi in H.
    inversion H; subst b.
    destruct (sweep_step_shape o act A) as (t & _ & Ht).
    exists t. rewrite finalize_assignedTag. exact Ht.
Qed.

Example negative_durations :
  tags_of (assignSlots opts_default [mk 0 5000 1000 "X"; mk 1 2000 2000 "Y"; mk 2 0 3000 "Z"])
  = ([Some "\an2"; Some "\an8"; Some "\an2"])%string.
Proof. vm_compute. reflexivity. Qed.

Example ts_ex1 : parseAssTimestampToMs (s "0:00:01.5") = Some 1500.
Proof. vm_compute. reflexivity. Qed.
Example ts_ex2 : parseAssTimestampToMs (s "0:00:01.05") = Some 1050.
Proof. vm_compute. reflexivity. Qed.
Example ts_ex3 : parseAssTimestampToMs (s "12:01:02.345") = None.
Proof. vm_compute. reflexivity. Qed.
Example col_ex1 : option_map string_of_list_byte (assColorToHex (Some (s "&HFF&"))) = Some "#ff0000"%string.
Proof. vm_compute. reflexivity. Qed.
Example col_ex2 : option_map string_of_list_byte (assColorToHex (Some (s " &h00FFFFFF "))) = Some "#ffffff"%string.
Proof. vm_compute. reflexivity. Qed.
Example col_ex3 : option_map string_of_list_byte (assColorToHex (Some (s "H0000FF"))) = Some "#ff0000"%string.
Proof. vm_compute. reflexivity. Qed.
Example col_ex4 : assColorToHex (Some (s "&HZZ00FF&")) = None.
Proof. vm_compute. reflexivity. Qed.
Example col_ex5 : option_map string_of_list_byte (assColorToHex (Some (s "&H12345678&"))) = Some "#785634"%string.
Proof. vm_compute. reflexivity. Qed.
Example split_ex :
  map string_of_list_byte (srt_raw_blocks ([x41; CR; NL; CR; NL; x42; NL; x43; NL; NL; NL]))
  = ["A"; string_of_list_byte [x42; NL; x43]; ""]%string.
Proof. vm_compute. reflexivity. Qed.

Example ev_ex1 :
  show_lines (ass_event_lines true white_style (s "{\an8\fnArial\fs20\c&H0000FF&}Hi\Nthere"))
  = Some [string_of_list_byte (s "{\an8}<font face=" ++ [DQ] ++ s "Arial" ++ [DQ] ++ s " size="
           ++ [DQ] ++ s "20" ++ [DQ] ++ s " color=" ++ [DQ] ++ s "#ff0000" ++ [DQ] ++ s ">Hi");
          string_of_list_byte (s "there</font>")].
Proof. vm_compute. reflexivity. Qed.

Example ev_ex2 :
  show_lines (ass_event_lines true white_style (s "Hi")) = Some ["Hi"%string].
Proof. vm_compute. reflexivity. Qed.

Example ev_ex3 :
  show_lines (ass_event_lines true white_style (s "{\c&HFFFFFF&}Hi"))
  = Some [string_of_list_byte (s "<font color=" ++ [DQ] ++ s "#ffffff" ++ [DQ] ++ s ">Hi</font>")].
Proof. vm_compute. reflexivity. Qed.

Example ev_ex4 :
  show_lines (ass_event_lines true white_style (s "{\1c&HFFFFFF&}Hi")) = Some ["Hi"%string].
Proof. vm_compute. reflexivity. Qed.

(** ** C3: the raw blocks of an SRT document *)

Lemma no_break_no_cr a : no_break a = true -> no_cr a = true.
Proof.
  induction a as [|c a IH]; simpl; [auto|].
  intros H. apply andb_true_iff in H. destruct H as [Hc Ha].
  apply andb_true_iff in Hc. destruct Hc as [_ Hc].
  rewrite Hc, IH by exact Ha. reflexivity.
Qed.

Lemma normalize_crlf_app a t :
  no_cr a = true -> normalize_crlf (a ++ t) = a ++ normalize_crlf t.
Proof.
  induction a as [|c a IH]; simpl; [auto|].
  intros H. apply andb_true_iff in H. destruct H as [Hc Ha].
  apply negb_true_iff in Hc.
  rewrite Hc. f_equal. apply IH, Ha.
Qed.

Lemma normalize_crlf_plain a : no_cr a = true -> normalize_crlf a = a.
Proof.
  intros H. rewrite <- (app_nil_r a) at 1. rewrite normalize_crlf_app by exact H.
  apply app_nil_r.
Qed.

Lemma no_cr_app a b : no_cr (a ++ b) = (no_cr a && no_cr b)%bool.
Proof. unfold no_cr. apply forallb_app. Qed.

Lemma split_go_plain a t cur :
  no_break a = true -> split_go (a ++ t) cur 0 = split_go t (cur ++ a) 0.
Proof.
  revert cur; induction a as [|c a IH]; intros cur H; simpl.
  - rewrite app_nil_r. reflexivity.
  - apply andb_true_iff in H. destruct H as [Hc Ha].
    apply andb_true_iff in Hc. destruct Hc as [Hc _]. apply negb_true_iff in Hc.
    rewrite Hc. simpl. rewrite IH by exact Ha. rewrite <- app_assoc. reflexivity.
Qed.

Lemma split_go_newlines k t cur n :
  split_go (repeat NL k ++ t) cur n = split_go t cur (n + k).
Proof.
  revert n; induction k as [|k IH]; intros n; simpl.
  - rewrite Nat.add_0_r. reflexivity.
  - rewrite IH. f_equal. lia.
Qed.

Lemma split_go_last b cur :
  no_break b = true -> split_go b cur 0 = [cur ++ b].
Proof.
  intros H. rewrite <- (app_nil_r b) at 1. rewrite split_go_plain by exact H.
  simpl. rewrite app_nil_r. reflexivity.
Qed.

Lemma split_go_run a b k :
  no_break a = true -> no_break b = true -> (2 <= k)%nat ->
  split_go (a ++ repeat NL k ++ b) [] 0 = [a; b].
Proof.
  intros Ha Hb Hk.
  rewrite split_go_plain, split_go_newlines by exact Ha. simpl.
  destruct b as [|c r].
  - simpl. destruct k as [|[|k]]; [lia|lia|reflexivity].
  - simpl in Hb. apply andb_true_iff in Hb. destruct Hb as [Hc Hr].
    apply andb_true_iff in Hc. destruct Hc as [Hc _]. apply negb_true_iff in Hc.
    simpl. rewrite Hc. destruct k as [|[|k]]; [lia|lia|].
    simpl. rewrite split_go_last by exact Hr. reflexivity.
Qed.

Lemma no_cr_repeat_NL k : no_cr (repeat NL k) = true.
Proof. induction k as [|k IH]; [reflexivity|]. unfold no_cr in *. simpl. exact IH. Qed.

(** C3 (counterexample): [A], one empty line, [B] gives two raw blocks. *)
Lemma C3_counterexample :
  ~ (forall a b, no_break a = true -> no_break b = true ->
       srt_raw_blocks (a ++ [NL; NL] ++ b) = [a ++ [NL; NL] ++ b]).
Proof.
  intros H. specialize (H (s "A") (s "B") eq_refl eq_refl).
  vm_compute in H. discriminate H.
Qed.

(** C3 (amended): after CRLF normalization, the document is split on runs
    of two or more consecutive newlines, that is on any run of one or more
    empty lines: two chunks separated by one or more empty lines are two
    raw blocks (also with CRLF line ends), while chunks separated by a
    single line break stay in one raw block. *)
Theorem C3_split_on_empty_lines a b k :
  no_break a = true -> no_break b = true -> (2 <= k)%nat ->
  srt_raw_blocks (a ++ repeat NL k ++ b) = [a; b]
  /\ srt_raw_blocks (a ++ [CR; NL; CR; NL] ++ b) = [a; b]
  /\ srt_raw_blocks (a ++ [NL] ++ b) = [a ++ [NL] ++ b].
Proof.
  intros Ha Hb Hk.
  split; [|split]; unfold srt_raw_blocks, split_newline_runs.
  - rewrite normalize_crlf_plain; [exact (split_go_run a b k Ha Hb Hk)|].
    rewrite !no_cr_app, no_cr_repeat_NL, (no_break_no_cr a Ha), (no_break_no_cr b Hb).
    reflexivity.
  - rewrite normalize_crlf_app by (apply no_break_no_cr; exact Ha). simpl.
    rewrite normalize_crlf_plain by (apply no_break_no_cr; exact Hb).
    exact (split_go_run a b 2 Ha Hb (le_n 2)).
  - rewrite normalize_crlf_plain
      by (rewrite !no_cr_app, (no_break_no_cr a Ha), (no_break_no_cr b Hb); reflexivity).
    rewrite split_go_plain by exact Ha. simpl.
    destruct b as [|c r]; simpl; [reflexivity|].
    simpl in Hb. apply andb_true_iff in Hb. destruct Hb as [Hc Hr].
    apply andb_true_iff in Hc. destruct Hc as [Hc _]. apply negb_true_iff in Hc.
    rewrite Hc. simpl. rewrite split_go_last by exact Hr.
    rewrite <- !app_assoc. reflexivity.
Qed.

(** C3: the theorem on [A], two empty lines, [B]. *)
Lemma C3_witness :
  srt_raw_blocks (s "A" ++ repeat NL 3 ++ s "B") = [s "A"; s "B"]
  /\ srt_raw_blocks (s "A" ++ [CR; NL; CR; NL] ++ s "B") = [s "A"; s "B"]
  /\ srt_raw_blocks (s "A" ++ [NL] ++ s "B") = [s "A" ++ [NL] ++ s "B"].
Proof. apply C3_split_on_empty_lines; vm_compute; try reflexivity. repeat constructor. Defined.

(** ** C8: the fractional part of ASS timestamps *)

Lemma span_digits_colon h rest :
  forallb is_digit h = true ->
  span_digits (h ++ ":"%byte :: rest) = (h, ":"%byte :: rest).
Proof.
  induction h as [|c h IH]; simpl; [reflexivity|].
  intros H. apply andb_true_iff in H. destruct H as [Hc Hh].
  rewrite Hc, IH by exact Hh. reflexivity.
Qed.

(** C8: with hours [h] (one or more digits), minutes [m1 m2] and seconds
    [s1 s2], a one-digit fraction [d] adds [d * 100] milliseconds and a
    two-digit fraction [c1 c2] adds [(10 * c1 + c2) * 10]; so [0:00:01.5]
    is 1500 ms and [0:00:01.05] is 1050 ms. The hours are below
    [2^53 / 3600000] (about 2.5 billion), so that the whole time stays
    below 2^53 and the code's floating-point sums are exact. *)
Theorem C8_ass_fraction h m1 m2 s1 s2 d c1 c2 :
  h <> [] -> forallb is_digit h = true -> digits_value h < 2 ^ 53 / 3600000 ->
  forallb is_digit [m1; m2; s1; s2; d; c1; c2] = true ->
  let base := ((digits_value h * 60 + digits_value [m1; m2]) * 60
               + digits_value [s1; s2]) * 1000 in
  parseAssTimestampToMs (h ++ [":"%byte; m1; m2; ":"%byte; s1; s2; "."%byte; d])
    = Some (base + digit_value d * 100)
  /\ parseAssTimestampToMs (h ++ [":"%byte; m1; m2; ":"%byte; s1; s2; "."%byte; c1; c2])
    = Some (base + (digit_value c1 * 10 + digit_value c2) * 10)
  /\ parseAssTimestampToMs (s "0:00:01.5") = Some 1500
  /\ parseAssTimestampToMs (s "0:00:01.05") = Some 1050.
Proof.
  intros Hne Hh _ Hd base.
  simpl in Hd. rewrite !andb_true_iff in Hd.
  destruct Hd as (Hm1 & Hm2 & Hs1 & Hs2 & Hdd & Hc1 & Hc2 & _).
  destruct h as [|x h']; [congruence|].
  split; [|split; [|split; vm_compute; reflexivity]];
    unfold parseAssTimestampToMs; rewrite span_digits_colon by exact Hh;
    cbn -[digits_value]; rewrite Hm1, Hm2, Hs1, Hs2; cbn -[digits_value].
  - rewrite Hdd. unfold base, digits_value. simpl. f_equal; lia.
  - rewrite Hc1, Hc2. unfold base, digits_value. simpl. f_equal; lia.
Qed.

(** C8: the theorem at [12:34:56.7] and [12:34:56.78]. *)
Lemma C8_witness :
  let base := ((digits_value (s "12") * 60 + digits_value (s "34")) * 60
               + digits_value (s "56")) * 1000 in
  parseAssTimestampToMs (s "12" ++ [":"%byte; "3"%byte; "4"%byte; ":"%byte; "5"%byte; "6"%byte; "."%byte; "7"%byte])
    = Some (base + digit_value "7"%byte * 100)
  /\ parseAssTimestampToMs (s "12" ++ [":"%byte; "3"%byte; "4"%byte; ":"%byte; "5"%byte; "6"%byte; "."%byte; "7"%byte; "8"%byte])
    = Some (base + (digit_value "7"%byte * 10 + digit_value "8"%byte) * 10)
  /\ parseAssTimestampToMs (s "0:00:01.5") = Some 1500
  /\ parseAssTimestampToMs (s "0:00:01.05") = Some 1050.
Proof.
  apply (C8_ass_fraction (s "12") "3"%byte "4"%byte "5"%byte "6"%byte "7"%byte "7"%byte "8"%byte);
    vm_compute; [discriminate|reflexivity|reflexivity|reflexivity].
Defined.

(** ** C10: colour conversion *)

Lemma length_padStart6 n : (6 <= List.length (padStart6 n))%nat.
Proof. unfold padStart6. rewrite length_app, repeat_length. lia. Qed.

Lemma length_lastn k t : (k <= List.length t)%nat -> List.length (lastn k t) = k.
Proof. unfold lastn. rewrite length_skipn. lia. Qed.

Lemma lastn6_shape n :
  exists b0 b1 g0 g1 r0 r1, lastn 6 (padStart6 n) = [b0; b1; g0; g1; r0; r1].
Proof.
  pose proof (length_lastn 6 (padStart6 n) (length_padStart6 n)) as H.
  destruct (lastn 6 (padStart6 n)) as [|b0 [|b1 [|g0 [|g1 [|r0 [|r1 [|x l]]]]]]];
    simpl in H; try discriminate.
  do 6 eexists. reflexivity.
Qed.

Lemma assColorToHex_body col :
  normalized_color col <> [] ->
  assColorToHex (Some col)
  = let six := lastn 6 (padStart6 (normalized_color col)) in
    if negb (hex2 (skipn 4 six)) then None
    else if negb (hex2 (firstn 2 (skipn 2 six))) then None
    else if negb (hex2 (firstn 2 six)) then None
    else Some (map to_lower ("#"%byte :: skipn 4 six ++ firstn 2 (skipn 2 six) ++ firstn 2 six)).
Proof.
  unfold normalized_color. intros H.
  destruct col as [|c cs]; [exfalso; apply H; reflexivity|].
  unfold assColorToHex.
  destruct (strip_amp_suffix (strip_H_prefix (trim (c :: cs)))) as [|x xs];
    [congruence|reflexivity].
Qed.

(** C10: after removing the [&H] prefix and the [&] suffix, a value shorter
    than six digits is left-padded with zeros, the last six characters are
    read as BBGGRR and rendered as [#rrggbb] in lower case, and when any of
    them is not a hex digit the result is "no colour"; in particular the
    inline override [\c&HFF&] gives [#ff0000]. *)
Theorem C10_ass_color_to_hex col :
  normalized_color col <> [] ->
  ((List.length (normalized_color col) <= 6)%nat ->
     lastn 6 (padStart6 (normalized_color col))
     = repeat "0"%byte (6 - List.length (normalized_color col)) ++ normalized_color col)
  /\ (forallb is_hex (lastn 6 (padStart6 (normalized_color col))) = false ->
      assColorToHex (Some col) = None)
  /\ (forall b0 b1 g0 g1 r0 r1,
        lastn 6 (padStart6 (normalized_color col)) = [b0; b1; g0; g1; r0; r1] ->
        forallb is_hex [b0; b1; g0; g1; r0; r1] = true ->
        assColorToHex (Some col)
        = Some (map to_lower ["#"%byte; r0; r1; g0; g1; b0; b1]))
  /\ color (fst (parseAssOverrides (s "{\c&HFF&}Hi"))) = Some (s "#ff0000").
Proof.
  intros Hn. split; [|split; [|split]].
  - intros Hle. unfold lastn, padStart6.
    rewrite length_app, repeat_length.
    replace (6 - List.length (normalized_color col) + List.length (normalized_color col) - 6)%nat
      with 0%nat by lia. reflexivity.
  - intros Hf. rewrite assColorToHex_body by exact Hn. cbv zeta.
    destruct (lastn6_shape (normalized_color col)) as (b0 & b1 & g0 & g1 & r0 & r1 & E).
    rewrite E in *. simpl in Hf |- *.
    destruct (is_hex r0), (is_hex r1), (is_hex g0), (is_hex g1), (is_hex b0), (is_hex b1);
      simpl in *; try reflexivity; rewrite ?andb_false_r in Hf; discriminate.
  - intros b0 b1 g0 g1 r0 r1 E Hh. rewrite assColorToHex_body by exact Hn. cbv zeta.
    rewrite E. simpl in Hh |- *.
    rewrite !andb_true_iff in Hh. destruct Hh as (H0 & H1 & H2 & H3 & H4 & H5 & _).
    rewrite H0, H1, H2, H3, H4, H5. reflexivity.
  - vm_compute. reflexivity.
Qed.

(** C10: the theorem on [&HFF&]. *)
Lemma C10_witness :
  ((List.length (normalized_color (s "&HFF&")) <= 6)%nat ->
     lastn 6 (padStart6 (normalized_color (s "&HFF&")))
     = repeat "0"%byte (6 - List.length (normalized_color (s "&HFF&")))
       ++ normalized_color (s "&HFF&"))
  /\ (forallb is_hex (lastn 6 (padStart6 (normalized_color (s "&HFF&")))) = false ->
      assColorToHex (Some (s "&HFF&")) = None)
  /\ (forall b0 b1 g0 g1 r0 r1,
        lastn 6 (padStart6 (normalized_color (s "&HFF&"))) = [b0; b1; g0; g1; r0; r1] ->
        forallb is_hex [b0; b1; g0; g1; r0; r1] = true ->
        assColorToHex (Some (s "&HFF&"))
        = Some (map to_lower ["#"%byte; r0; r1; g0; g1; b0; b1]))
  /\ color (fst (parseAssOverrides (s "{\c&HFF&}Hi"))) = Some (s "#ff0000").
Proof. apply C10_ass_color_to_hex. vm_compute. discriminate. Defined.

(** ** C9: white colours of ASS events *)

(** C9 (code bug): the style's [PrimaryColour] is white and keep-white is
    off; an inline [\1c&HFFFFFF&] override is dropped by the tokenizer of
    line 259 (a token needs a letter after the backslash), so the event's
    colour falls back to the style's white and is discarded, while the same
    override written [\c&HFFFFFF&] is kept. *)
Theorem C9_inline_1c_white_lost :
  tokens (s "\1c&HFFFFFF&") = []
  /\ color (fst (parseAssOverrides (s "{\1c&HFFFFFF&}Hi"))) = None
  /\ ass_event_lines true white_style (s "{\1c&HFFFFFF&}Hi") = Some [s "Hi"]
  /\ ass_event_lines true white_style (s "{\c&HFFFFFF&}Hi")
     = Some [s "<font color=" ++ [DQ] ++ s "#ffffff" ++ [DQ] ++ s ">Hi</font>"].
Proof. vm_compute. repeat split. Qed.

(** An explicit colour override is never discarded. *)
Lemma event_color_override omit style ov c :
  color ov = Some c -> event_color omit style ov = Some c.
Proof. unfold event_color. intros ->. simpl. reflexivity. Qed.

(** ** C2: a file without blocks in a batch *)

Section MainFacts.
Variable readText : str -> str + str.
Variable parseFile : str -> str -> bool * list SubtitleBlock * Z.
Variable serialize : list SubtitleBlock -> str.
Variable target : str -> option str.
Variable writeFile : str -> str -> option str.
Variable opts : AssignOptions.

(** A file that cannot be read is counted and the loop goes on. *)
Lemma main_loop_read_error p rest f k err :
  readText p = inl err ->
  main_loop readText parseFile serialize target writeFile opts (p :: rest) f k
  = ReadFile p :: Stderr (p ++ s ": " ++ err)
      :: main_loop readText parseFile serialize target writeFile opts rest (S f) k.
Proof. intros H. simpl. rewrite H. reflexivity. Qed.

(** A file without blocks ends the run on the spot. *)
Lemma main_loop_no_blocks p rest f k txt isAss skipped :
  readText p = inr txt -> parseFile p txt = (isAss, [], skipped) ->
  main_loop readText parseFile serialize target writeFile opts (p :: rest) f k
  = [ReadFile p;
     Stderr (if isAss then s "No valid ASS dialogue blocks found."
             else s "No valid subtitle blocks found."); Exit 1].
Proof. intros H1 H2. simpl. rewrite H1, H2. reflexivity. Qed.
End MainFacts.

(** C2 (code bug): with [empty.srt] (no valid block) before [good.srt] in
    one run, the run prints the error, exits with status 1, and never reads
    [good.srt]. *)
Theorem C2_no_blocks_aborts_batch :
  main_loop demo_read demo_parse (fun _ => s "out") (fun p => Some (p ++ s ".fixed"))
    (fun _ _ => None) opts_default [s "empty.srt"; s "good.srt"] 0 0
  = [ReadFile (s "empty.srt"); Stderr (s "No valid subtitle blocks found."); Exit 1]
  /\ ~ In (ReadFile (s "good.srt"))
       (main_loop demo_read demo_parse (fun _ => s "out") (fun p => Some (p ++ s ".fixed"))
          (fun _ _ => None) opts_default [s "empty.srt"; s "good.srt"] 0 0)
  /\ main_loop demo_read demo_parse (fun _ => s "out") (fun p => Some (p ++ s ".fixed"))
       (fun _ _ => None) opts_default [s "good.srt"] 0 0
     = [ReadFile (s "good.srt"); WriteFile (s "good.srt.fixed") (s "out" ++ [NL])].
Proof.
  split; [|split].
  - rewrite (main_loop_no_blocks demo_read demo_parse (fun _ => s "out")
               (fun p => Some (p ++ s ".fixed")) (fun _ _ => None) opts_default
               (s "empty.srt") [s "good.srt"] 0 0 [] false 0); reflexivity.
  - vm_compute. intros [H|[H|[H|[]]]]; discriminate H.
  - vm_compute. reflexivity.
Qed.

(** * The rest of the program: proofs *)

Lemma digit_char_spec d :
  0 <= d < 10 -> is_digit (digit_char d) = true /\ digit_value (digit_char d) = d.
Proof.
  intros H.
  assert (d = 0 \/ d = 1 \/ d = 2 \/ d = 3 \/ d = 4 \/ d = 5 \/ d = 6 \/ d = 7
          \/ d = 8 \/ d = 9) as Hd by lia.
  repeat destruct Hd as [->|Hd]; try (subst; split; reflexivity).
Qed.

Lemma decimal_go_small f n acc :
  0 <= n < 10 -> decimal_go (S f) n acc = digit_char n :: acc.
Proof.
  intros H. simpl. rewrite Z.mod_small by lia.
  destruct (Z.ltb_spec n 10); [reflexivity|lia].
Qed.

Lemma decimal_go_big f n acc :
  10 <= n -> decimal_go (S f) n acc = decimal_go f (n / 10) (digit_char (n mod 10) :: acc).
Proof. intros H. simpl. destruct (Z.ltb_spec n 10); [lia|reflexivity]. Qed.

Lemma log2_ge n k : 2 ^ k <= n -> 0 <= k -> k <= Z.log2 n.
Proof. intros H Hk. apply Z.log2_le_pow2; lia. Qed.

Lemma pad2 n :
  0 <= n < 100 ->
  padStart 2 (String_of_Z n) = [digit_char (n / 10); digit_char (n mod 10)].
Proof.
  intros H. unfold String_of_Z. destruct (Z.ltb_spec n 0); [lia|].
  unfold decimal.
  destruct (Z.ltb_spec n 10).
  - rewrite decimal_go_small by lia. rewrite Z.div_small, Z.mod_small by lia.
    reflexivity.
  - assert (3 <= Z.log2 n) by (apply log2_ge; lia).
    replace (Z.to_nat (Z.log2 n)) with (S (Z.to_nat (Z.log2 n - 1))) by lia.
    rewrite decimal_go_big by lia. rewrite decimal_go_small.
    + reflexivity.
    + split; [apply Z.div_pos; lia|]. apply Z.div_lt_upper_bound; lia.
Qed.

Lemma pad3 n :
  0 <= n < 1000 ->
  padStart 3 (String_of_Z n)
  = [digit_char (n / 100); digit_char ((n / 10) mod 10); digit_char (n mod 10)].
Proof.
  intros H. unfold String_of_Z. destruct (Z.ltb_spec n 0); [lia|].
  unfold decimal.
  destruct (Z.ltb_spec n 10).
  - rewrite decimal_go_small by lia.
    rewrite (Z.div_small n 100), (Z.div_small n 10), (Z.mod_small n 10) by lia.
    reflexivity.
  - assert (3 <= Z.log2 n) by (apply log2_ge; lia).
    replace (Z.to_nat (Z.log2 n)) with (S (S (Z.to_nat (Z.log2 n - 2)))) by lia.
    rewrite decimal_go_big by lia.
    destruct (Z.ltb_spec n 100).
    + rewrite decimal_go_small.
      * rewrite (Z.div_small n 100) by lia. rewrite (Z.mod_small (n / 10)).
        -- reflexivity.
        -- split; [apply Z.div_pos; lia|]. apply Z.div_lt_upper_bound; lia.
      * split; [apply Z.div_pos; lia|]. apply Z.div_lt_upper_bound; lia.
    + rewrite decimal_go_big.
      2:{ apply Z.div_le_lower_bound; lia. }
      rewrite decimal_go_small.
      * rewrite Z.div_div by lia. reflexivity.
      * rewrite Z.div_div by lia. split; [apply Z.div_pos; lia|].
        apply Z.div_lt_upper_bound; lia.
Qed.

Lemma rem_nonneg a b : 0 <= a -> 0 < b -> Z.rem a b = a mod b.
Proof. intros. apply Z.rem_mod_nonneg; lia. Qed.

Lemma is_digit_dc d : 0 <= d < 10 -> is_digit (digit_char d) = true.
Proof. apply digit_char_spec. Qed.

Lemma dv_dc d : 0 <= d < 10 -> digit_value (digit_char d) = d.
Proof. apply digit_char_spec. Qed.

Lemma ms_roundtrip ms :
  0 <= ms < 360000000 -> parseTimestampToMs (msToSrtTimestamp ms) = Some ms.
Proof.
  intros H. unfold msToSrtTimestamp.
  assert (0 <= ms / 1000) by (apply Z.div_pos; lia).
  assert (0 <= ms / 1000 / 60) by (apply Z.div_pos; lia).
  rewrite !rem_nonneg by lia.
  assert (Hh : 0 <= ms / 1000 / 60 / 60 < 100).
  { split; [apply Z.div_pos; lia|]. rewrite !Z.div_div by lia.
    apply Z.div_lt_upper_bound; lia. }
  rewrite (pad2 (ms / 1000 / 60 / 60)) by exact Hh.
  rewrite (pad2 (ms / 1000 / 60 mod 60)) by (pose proof (Z.mod_pos_bound (ms / 1000 / 60) 60); lia).
  rewrite (pad2 (ms / 1000 mod 60)) by (pose proof (Z.mod_pos_bound (ms / 1000) 60); lia).
  rewrite (pad3 (ms mod 1000)) by (pose proof (Z.mod_pos_bound ms 1000); lia).
  set (h := ms / 1000 / 60 / 60).
  set (m := ms / 1000 / 60 mod 60).
  set (sc := ms / 1000 mod 60).
  set (f := ms mod 1000).
  assert (Hm : 0 <= m < 60) by (apply Z.mod_pos_bound; lia).
  assert (Hs : 0 <= sc < 60) by (apply Z.mod_pos_bound; lia).
  assert (Hf : 0 <= f < 1000) by (apply Z.mod_pos_bound; lia).
  assert (B : forall x y, 0 <= x -> 0 < y -> 0 <= x / y /\ 0 <= x mod y < y).
  { intros x y Hx Hy. split; [apply Z.div_pos; lia|apply Z.mod_pos_bound; lia]. }
  assert (D : forall x, 0 <= x < 100 -> 0 <= x / 10 < 10 /\ 0 <= x mod 10 < 10).
  { intros x Hx. split; [split; [apply Z.div_pos; lia|apply Z.div_lt_upper_bound; lia]|
      apply Z.mod_pos_bound; lia]. }
  assert (D3 : 0 <= f / 100 < 10 /\ 0 <= (f / 10) mod 10 < 10 /\ 0 <= f mod 10 < 10).
  { split; [split; [apply Z.div_pos; lia|apply Z.div_lt_upper_bound; lia]|].
    split; apply Z.mod_pos_bound; lia. }
  destruct (D h Hh) as [Dh1 Dh2]. destruct (D m ltac:(lia)) as [Dm1 Dm2].
  destruct (D sc ltac:(lia)) as [Ds1 Ds2]. destruct D3 as (Df1 & Df2 & Df3).
  simpl app. unfold parseTimestampToMs.
  rewrite !is_digit_dc by assumption. simpl.
  unfold digits_value; simpl. rewrite !dv_dc by assumption.
  f_equal.
  unfold h, m, sc, f in *.
  Z.div_mod_to_equations. lia.
Qed.

Lemma decimal_go_len f n acc : (List.length acc <= List.length (decimal_go f n acc))%nat.
Proof.
  revert n acc; induction f as [|f IH]; intros n acc; simpl; [lia|].
  destruct (n <? 10); simpl; [lia|]. specialize (IH (n / 10) (digit_char (n mod 10) :: acc)).
  simpl in IH. lia.
Qed.

Lemma decimal_go_len_S f n acc : (S (List.length acc) <= List.length (decimal_go (S f) n acc))%nat.
Proof.
  simpl. destruct (n <? 10); simpl; [lia|].
  pose proof (decimal_go_len f (n / 10) (digit_char (n mod 10) :: acc)). simpl in H. lia.
Qed.

Lemma decimal_len_100 n : 100 <= n -> (3 <= List.length (String_of_Z n))%nat.
Proof.
  intros H. unfold String_of_Z. destruct (Z.ltb_spec n 0); [lia|]. unfold decimal.
  assert (6 <= Z.log2 n) by (apply log2_ge; lia).
  replace (Z.to_nat (Z.log2 n)) with (S (S (Z.to_nat (Z.log2 n - 2)))) by lia.
  rewrite decimal_go_big by lia. rewrite decimal_go_big.
  2:{ apply Z.div_le_lower_bound; lia. }
  pose proof (decimal_go_len_S (Z.to_nat (Z.log2 n - 2)) (n / 10 / 10)
               [digit_char (n / 10 mod 10); digit_char (n mod 10)]).
  cbn [List.length] in H2. lia.
Qed.

Lemma padStart_len k t : (k <= List.length (padStart k t) /\ List.length t <= List.length (padStart k t))%nat.
Proof. unfold padStart. rewrite length_app, repeat_length. lia. Qed.

Lemma ts_shape x v :
  parseTimestampToMs x = Some v ->
  exists h1 h2 m1 m2 s1 s2 f1 f2 f3,
    x = [h1; h2; ":"%byte; m1; m2; ":"%byte; s1; s2; ","%byte; f1; f2; f3]
    /\ forallb is_digit [h1; h2; m1; m2; s1; s2; f1; f2; f3] = true.
Proof.
  unfold parseTimestampToMs. intros H.
  do 12 (destruct x as [|? x]; [discriminate|]). destruct x; [|discriminate].
  repeat match type of H with
  | context [if ?c then _ else _] => destruct c eqn:?; [|discriminate]
  end.
  repeat match goal with
  | E : (_ && _)%bool = true |- _ => apply andb_true_iff in E; destruct E
  end.
  repeat match goal with
  | E : Byte.eqb _ _ = true |- _ => apply Byte.byte_dec_bl in E; subst
  end.
  do 9 eexists. split; [reflexivity|]. simpl.
  repeat match goal with E : is_digit _ = true |- _ => rewrite E; clear E end. reflexivity.
Qed.

Lemma ts_length x v : parseTimestampToMs x = Some v -> List.length x = 12%nat.
Proof. intros H. destruct (ts_shape x v H) as (? & ? & ? & ? & ? & ? & ? & ? & ? & -> & _). reflexivity. Qed.

Lemma ms_out_of_range ms :
  (ms < 0 \/ 360000000 <= ms) -> parseTimestampToMs (msToSrtTimestamp ms) = None.
Proof.
  intros H. destruct (parseTimestampToMs (msToSrtTimestamp ms)) as [v|] eqn:E; [|reflexivity].
  exfalso. destruct H as [H|H].
  - destruct (ts_shape _ _ E) as (h1 & ? & ? & ? & ? & ? & ? & ? & ? & Ex & Hd).
    unfold msToSrtTimestamp, String_of_Z in Ex.
    assert (Hn : ms / 1000 / 60 / 60 < 0).
    { rewrite !Z.div_div by lia. apply Z.div_lt_upper_bound; lia. }
    destruct (Z.ltb_spec (ms / 1000 / 60 / 60) 0); [|lia].
    unfold padStart at 1 in Ex. unfold decimal in Ex.
    pose proof (decimal_go_len_S (Z.to_nat (Z.log2 (- (ms / 1000 / 60 / 60))))
                  (- (ms / 1000 / 60 / 60)) []) as L.
    destruct (decimal_go _ _ []) as [|d ds]; [simpl in L; lia|].
    simpl in Ex. injection Ex as <-. discriminate Hd.
  - pose proof (ts_length _ _ E) as L. unfold msToSrtTimestamp in L.
    rewrite !length_app in L. simpl in L.
    pose proof (padStart_len 2 (String_of_Z (ms / 1000 / 60 / 60))).
    pose proof (padStart_len 2 (String_of_Z (Z.rem (ms / 1000 / 60) 60))).
    pose proof (padStart_len 2 (String_of_Z (Z.rem (ms / 1000) 60))).
    pose proof (padStart_len 3 (String_of_Z (Z.rem ms 1000))).
    assert (100 <= ms / 1000 / 60 / 60).
    { rewrite !Z.div_div by lia. apply Z.div_le_lower_bound; lia. }
    pose proof (decimal_len_100 _ H4). lia.
Qed.

(** X1: Rendering a time with [msToSrtTimestamp] and parsing it back with
    [parseTimestampToMs] gives the time exactly when it lies in
    [0, 360000000) (under 100 hours), and fails otherwise. *)
Theorem ms_timestamp_roundtrip ms :
  parseTimestampToMs (msToSrtTimestamp ms)
  = if (0 <=? ms) && (ms <? 360000000) then Some ms else None.
Proof.
  destruct (Z.leb_spec 0 ms), (Z.ltb_spec ms 360000000); simpl.
  - apply ms_roundtrip; lia.
  - apply ms_out_of_range; lia.
  - apply ms_out_of_range; lia.
  - apply ms_out_of_range; lia.
Qed.

Lemma digit_plain c : is_digit c = true -> plain c = true.
Proof. destruct c; try reflexivity; discriminate. Qed.

Lemma digit_not_space c : is_digit c = true -> is_space c = false.
Proof. destruct c; try reflexivity; discriminate. Qed.

Lemma match_arrow_plain c r : plain c = true -> match_arrow (c :: r) = None.
Proof.
  unfold plain. intros H. apply andb_true_iff in H. destruct H as [H1 H2].
  apply negb_true_iff in H1, H2. simpl. rewrite H1.
  unfold starts_with, str_eqb.
  destruct (list_eq_dec Byte.byte_eq_dec (firstn (List.length arrow) (c :: r)) arrow)
    as [E|E]; [|reflexivity].
  simpl in E. injection E; intros; subst c. discriminate.
Qed.

Lemma match_arrow_spaces_plain w c r :
  forallb is_space w = true -> plain c = true -> match_arrow (w ++ c :: r) = None.
Proof.
  induction w as [|x w IH]; simpl; intros Hw Hc.
  - apply match_arrow_plain, Hc.
  - apply andb_true_iff in Hw. destruct Hw as [Hx Hw]. rewrite Hx. apply IH; assumption.
Qed.

Lemma match_arrow_spaces w : forallb is_space w = true -> match_arrow w = None.
Proof.
  induction w as [|x w IH]; simpl; intros Hw; [reflexivity|].
  apply andb_true_iff in Hw. destruct Hw as [Hx Hw]. rewrite Hx. apply IH, Hw.
Qed.

Lemma drop_spaces_app w t :
  forallb is_space w = true -> drop_spaces (w ++ t) = drop_spaces t.
Proof.
  induction w as [|x w IH]; simpl; intros Hw; [reflexivity|].
  apply andb_true_iff in Hw. destruct Hw as [Hx Hw]. rewrite Hx. apply IH, Hw.
Qed.

Lemma drop_spaces_nonspace c r : is_space c = false -> drop_spaces (c :: r) = c :: r.
Proof. simpl. intros ->. reflexivity. Qed.

Lemma match_arrow_hit w t :
  forallb is_space w = true -> match_arrow (w ++ s "-->" ++ t) = Some (drop_spaces t).
Proof.
  induction w as [|x w IH]; simpl; intros Hw.
  - reflexivity.
  - apply andb_true_iff in Hw. destruct Hw as [Hx Hw]. rewrite Hx. apply IH, Hw.
Qed.

Lemma split_arrow_skip p t cur f :
  (List.length p <= f)%nat ->
  (forall k, (k < List.length p)%nat -> match_arrow (skipn k p ++ t) = None) ->
  split_arrow_go f (p ++ t) cur = split_arrow_go (f - List.length p) t (cur ++ p).
Proof.
  revert cur f; induction p as [|c p IH]; intros cur f Hf Hk; simpl.
  - rewrite Nat.sub_0_r, app_nil_r. reflexivity.
  - destruct f as [|f]; [simpl in Hf; lia|]. simpl.
    pose proof (Hk 0%nat ltac:(simpl; lia)) as H0. simpl in H0. rewrite H0.
    rewrite IH.
    + rewrite <- app_assoc. reflexivity.
    + simpl in Hf. lia.
    + intros k Hlt. apply (Hk (S k)). simpl. lia.
Qed.

Lemma forallb_skipn {A} (f : A -> bool) k l :
  forallb f l = true -> forallb f (skipn k l) = true.
Proof.
  revert l; induction k as [|k IH]; intros [|x l] H; simpl in *; auto.
  apply andb_true_iff in H. apply IH, H.
Qed.

Lemma skipn_nonempty {A} k (l : list A) :
  (k < List.length l)%nat -> exists x r, skipn k l = x :: r /\ In x l.
Proof.
  revert l; induction k as [|k IH]; intros [|x l] H; simpl in *; try lia.
  - exists x, l. auto.
  - destruct (IH l ltac:(lia)) as (y & r & E & Hi). exists y, r. auto.
Qed.

Lemma no_match_spaces_plain w a t k :
  forallb is_space w = true -> forallb plain a = true -> a <> [] ->
  (k < List.length (w ++ a))%nat -> match_arrow (skipn k (w ++ a) ++ t) = None.
Proof.
  intros Hw Ha Hne Hk. rewrite skipn_app.
  destruct (Nat.lt_ge_cases k (List.length w)) as [Hl|Hl].
  - replace (k - List.length w)%nat with 0%nat by lia. simpl.
    destruct a as [|c r]; [congruence|]. simpl in Ha. apply andb_true_iff in Ha.
    rewrite <- app_assoc. apply match_arrow_spaces_plain; [apply forallb_skipn, Hw|apply Ha].
  - rewrite skipn_all2 by lia. simpl. rewrite length_app in Hk.
    destruct (skipn_nonempty (k - List.length w) a ltac:(lia)) as (x & r & -> & Hi).
    apply match_arrow_plain. rewrite forallb_forall in Ha. apply Ha, Hi.
Qed.

Lemma no_match_plain_spaces a w k :
  forallb plain a = true -> forallb is_space w = true ->
  (k < List.length (a ++ w))%nat -> match_arrow (skipn k (a ++ w)) = None.
Proof.
  intros Ha Hw Hk. rewrite skipn_app.
  destruct (Nat.lt_ge_cases k (List.length a)) as [Hl|Hl].
  - destruct (skipn_nonempty k a Hl) as (x & r & -> & Hi). simpl.
    apply match_arrow_plain. rewrite forallb_forall in Ha. apply Ha, Hi.
  - rewrite skipn_all2 by lia. simpl. apply match_arrow_spaces, forallb_skipn, Hw.
Qed.

Lemma ts_plain x v :
  parseTimestampToMs x = Some v ->
  forallb plain x = true
  /\ exists c r z q, x = c :: r /\ x = q ++ [z] /\ is_space c = false /\ is_space z = false.
Proof.
  intros H. destruct (ts_shape x v H) as (h1 & h2 & m1 & m2 & s1 & s2 & f1 & f2 & f3 & -> & Hd).
  simpl in Hd. rewrite !andb_true_iff in Hd.
  destruct Hd as (D1 & D2 & D3 & D4 & D5 & D6 & D7 & D8 & D9 & _).
  split.
  - simpl. rewrite !digit_plain by assumption. reflexivity.
  - exists h1, [h2; ":"%byte; m1; m2; ":"%byte; s1; s2; ","%byte; f1; f2; f3], f3,
      [h1; h2; ":"%byte; m1; m2; ":"%byte; s1; s2; ","%byte; f1; f2].
    rewrite !digit_not_space by assumption. auto.
Qed.

Lemma forallb_rev' {A} (f : A -> bool) l : forallb f (rev l) = forallb f l.
Proof.
  induction l as [|x l IH]; simpl; [reflexivity|].
  rewrite forallb_app, IH. simpl. rewrite andb_true_r, andb_comm. reflexivity.
Qed.

Lemma trim_padded w1 x w2 c r z q :
  forallb is_space w1 = true -> forallb is_space w2 = true ->
  x = c :: r -> x = q ++ [z] -> is_space c = false -> is_space z = false ->
  trim (w1 ++ x ++ w2) = x.
Proof.
  intros H1 H2 E1 E2 Hc Hz.
  assert (A : drop_spaces (x ++ w2) = x ++ w2).
  { rewrite E1. simpl. rewrite Hc. reflexivity. }
  assert (B : drop_spaces (rev (x ++ w2)) = rev x).
  { rewrite rev_app_distr, drop_spaces_app by (rewrite forallb_rev'; exact H2).
    rewrite E2, rev_app_distr. simpl. rewrite Hz. reflexivity. }
  unfold trim. rewrite drop_spaces_app by exact H1. rewrite A, B. apply rev_involutive.
Qed.

Lemma split_arrow_hit t rest cur f :
  match_arrow t = Some rest ->
  split_arrow_go (S f) t cur = cur :: split_arrow_go f rest [].
Proof. destruct t as [|c t]; simpl; [discriminate|]. intros H. simpl in H. rewrite H. reflexivity. Qed.

Lemma split_arrow_end f cur : split_arrow_go f [] cur = [cur].
Proof. destruct f; simpl; [rewrite app_nil_r|]; reflexivity. Qed.

Lemma split_arrow_skip_end p cur f :
  (List.length p <= f)%nat ->
  (forall k, (k < List.length p)%nat -> match_arrow (skipn k p) = None) ->
  split_arrow_go f p cur = [cur ++ p].
Proof.
  intros Hf Hk. rewrite <- (app_nil_r p) at 1. rewrite split_arrow_skip by
    (try exact Hf; intros k Hl; rewrite app_nil_r; apply Hk, Hl).
  apply split_arrow_end.
Qed.

Lemma trim_ts w1 x w2 v :
  forallb is_space w1 = true -> forallb is_space w2 = true ->
  parseTimestampToMs x = Some v -> trim (w1 ++ x ++ w2) = x.
Proof.
  intros H1 H2 Hx. destruct (ts_plain x v Hx) as (_ & c & r & z & q & E1 & E2 & Hc & Hz).
  exact (trim_padded w1 x w2 c r z q H1 H2 E1 E2 Hc Hz).
Qed.

Lemma timing_line_normalize w1 a w2 w3 b w4 x y :
  forallb is_space (w1 ++ w2 ++ w3 ++ w4) = true ->
  parseTimestampToMs a = Some x -> parseTimestampToMs b = Some y ->
  parseTimingLine (w1 ++ a ++ w2 ++ s "-->" ++ w3 ++ b ++ w4)
  = Some (x, y, a ++ s " --> " ++ b).
Proof.
  intros Hw Ha Hb. rewrite !forallb_app in Hw.
  apply andb_true_iff in Hw. destruct Hw as [H1 Hw].
  apply andb_true_iff in Hw. destruct Hw as [H2 Hw].
  apply andb_true_iff in Hw. destruct Hw as [H3 H4].
  destruct (ts_plain a x Ha) as (Pa & ca & ra & za & qa & Ea & _).
  destruct (ts_plain b y Hb) as (Pb & cb & rb & zb & qb & Eb & _ & Hcb & _).
  unfold parseTimingLine, split_arrow.
  rewrite (app_assoc w1 a).
  set (rest := w2 ++ s "-->" ++ w3 ++ b ++ w4).
  rewrite split_arrow_skip.
  2:{ rewrite !length_app. lia. }
  2:{ intros k Hk. apply no_match_spaces_plain; auto. congruence. }
  replace (List.length ((w1 ++ a) ++ rest) - List.length (w1 ++ a))%nat
    with (S (List.length w2 + 2 + List.length w3 + List.length (b ++ w4)))
    by (unfold rest; rewrite !length_app; simpl; lia).
  rewrite (split_arrow_hit _ (b ++ w4)).
  2:{ unfold rest. rewrite match_arrow_hit by exact H2. rewrite drop_spaces_app by exact H3.
      rewrite Eb. simpl. rewrite Hcb. reflexivity. }
  rewrite split_arrow_skip_end.
  2:{ rewrite !length_app; simpl; lia. }
  2:{ intros k Hk. apply no_match_plain_spaces; assumption. }
  pose proof (trim_ts w1 a [] x H1 eq_refl Ha) as T1. rewrite app_nil_r in T1.
  pose proof (trim_ts [] b w4 y eq_refl H4 Hb) as T2. rewrite app_nil_l in T2.
  rewrite !app_nil_l, T1, T2, Ha, Hb. reflexivity.
Qed.

(** X2: A timing line made of two SRT timestamps around [-->], with any ASCII
    white space around them, parses to both times and the canonical text
    [a --> b]. *)
Theorem parseTimingLine_normalizes w1 a w2 w3 b w4 x y :
  forallb is_space (w1 ++ w2 ++ w3 ++ w4) = true ->
  parseTimestampToMs a = Some x -> parseTimestampToMs b = Some y ->
  parseTimingLine (w1 ++ a ++ w2 ++ s "-->" ++ w3 ++ b ++ w4)
  = Some (x, y, a ++ s " --> " ++ b).
Proof. exact (timing_line_normalize w1 a w2 w3 b w4 x y). Qed.

Lemma parseTimingLine_canonical a b x y :
  parseTimestampToMs a = Some x -> parseTimestampToMs b = Some y ->
  parseTimingLine (a ++ s " --> " ++ b) = Some (x, y, a ++ s " --> " ++ b).
Proof.
  intros Ha Hb.
  pose proof (timing_line_normalize [] a [" "%byte] [" "%byte] b [] x y eq_refl Ha Hb) as H.
  rewrite app_nil_r in H. exact H.
Qed.

Lemma parseTimingLine_shape t x y t' :
  parseTimingLine t = Some (x, y, t') ->
  exists a b, t' = a ++ s " --> " ++ b
    /\ parseTimestampToMs a = Some x /\ parseTimestampToMs b = Some y.
Proof.
  unfold parseTimingLine.
  destruct (split_arrow t) as [|p0 [|p1 [|p2 r]]]; try discriminate.
  destruct (parseTimestampToMs (trim p0)) eqn:E0; [|discriminate].
  destruct (parseTimestampToMs (trim p1)) eqn:E1; [|discriminate].
  intros H. injection H as <- <- <-. exists (trim p0), (trim p1). auto.
Qed.

Lemma parseTimingLine_idem t x y t' :
  parseTimingLine t = Some (x, y, t') -> parseTimingLine t' = Some (x, y, t').
Proof.
  intros H. destruct (parseTimingLine_shape t x y t' H) as (a & b & -> & Ha & Hb).
  apply parseTimingLine_canonical; assumption.
Qed.

Lemma existsb_negb {A} (f : A -> bool) l :
  existsb (fun x => negb (f x)) l = negb (forallb f l).
Proof.
  induction l as [|x l IH]; simpl; [reflexivity|]. rewrite IH, negb_andb. reflexivity.
Qed.

Lemma parse_srt_block_spec o raw b :
  parse_srt_block o raw = Some b ->
  originalOrder b = o
  /\ existsb (fun l => negb (is_blank l)) (lines b) = true
  /\ parseTimingLine (timingLine b) = Some (startMs b, endMs b, timingLine b)
  /\ assignedTag b = None /\ existingTag b = None /\ keepExisting b = false.
Proof.
  unfold parse_srt_block.
  destruct (trim raw) as [|c r]; [discriminate|].
  destruct (split_lines (c :: r)) as [|l ls]; [discriminate|].
  destruct (find_index contains_arrow (l :: ls)) as [ti|]; [|discriminate].
  destruct (parseTimingLine (trim (nth ti (l :: ls) []))) as [[[st en] tl]|] eqn:Et;
    [|discriminate].
  destruct (skipn (S ti) (l :: ls)) as [|t0 ts] eqn:Es; simpl; [discriminate|].
  destruct (is_blank t0 && forallb is_blank ts)%bool eqn:Eb; [discriminate|].
  intros H. injection H as <-. simpl.
  split; [reflexivity|]. split.
  - rewrite (existsb_negb is_blank ts), <- negb_andb, Eb. reflexivity.
  - split; [apply (parseTimingLine_idem _ _ _ _ Et)|]. auto.
Qed.

Lemma parse_srt_block_lines o raw b :
  parse_srt_block o raw = Some b -> exists pre, split_lines (trim raw) = pre ++ lines b.
Proof.
  unfold parse_srt_block.
  destruct (trim raw) as [|c r]; [discriminate|].
  destruct (split_lines (c :: r)) as [|l ls]; [discriminate|].
  destruct (find_index contains_arrow (l :: ls)) as [ti|]; [|discriminate].
  destruct (parseTimingLine (trim (nth ti (l :: ls) []))) as [[[st en] tl]|]; [|discriminate].
  destruct (skipn (S ti) (l :: ls)) as [|t0 ts] eqn:Es; simpl; [discriminate|].
  destruct (is_blank t0 && forallb is_blank ts)%bool; [discriminate|].
  intros H. injection H as <-. simpl.
  exists (firstn (S ti) (l :: ls)). rewrite <- Es. symmetry. apply firstn_skipn.
Qed.

Lemma parse_srt_go_spec order raws :
  let (bs, skipped) := parse_srt_go order raws in
  Z.of_nat (List.length bs) + skipped = Z.of_nat (List.length raws)
  /\ StronglySorted (fun a b => originalOrder a < originalOrder b) bs
  /\ Forall (fun b => order <= originalOrder b < order + Z.of_nat (List.length raws)
       /\ exists raw, nth_error raws (Z.to_nat (originalOrder b - order)) = Some raw
                      /\ parse_srt_block (originalOrder b) raw = Some b) bs.
Proof.
  revert order; induction raws as [|r raws IH]; intros order; simpl.
  - split; [reflexivity|]. split; constructor.
  - specialize (IH (order + 1)). destruct (parse_srt_go (order + 1) raws) as [bs k].
    destruct IH as (Hc & Hs & Hf).
    assert (Hf' : Forall (fun b => order <= originalOrder b < order + Z.of_nat (S (List.length raws))
       /\ exists raw, nth_error (r :: raws) (Z.to_nat (originalOrder b - order)) = Some raw
                      /\ parse_srt_block (originalOrder b) raw = Some b) bs).
    { eapply Forall_impl; [|exact Hf]. intros b (Hb & raw & Hn & Hp).
      split; [rewrite Nat2Z.inj_succ; lia|].
      exists raw. split; [|exact Hp].
      replace (Z.to_nat (originalOrder b - order)) with (S (Z.to_nat (originalOrder b - (order + 1))))
        by lia. exact Hn. }
    destruct (parse_srt_block order r) as [b|] eqn:E.
    + destruct (parse_srt_block_spec _ _ _ E) as (Ho & _).
      split; [cbn [List.length]; rewrite ?Nat2Z.inj_succ; lia|]. split.
      * constructor; [exact Hs|]. eapply Forall_impl; [|exact Hf]. simpl. intros x (Hx & _). lia.
      * constructor; [|exact Hf']. split; [lia|]. exists r. rewrite Ho, Z.sub_diag. simpl.
        auto.
    + split; [cbn [List.length]; rewrite ?Nat2Z.inj_succ; lia|]. split; [exact Hs|exact Hf'].
Qed.

(** X3: On ASCII text, every block [parseSrt] returns comes from the raw
    block at position [originalOrder], in increasing order, and its text
    lines are the last lines of that raw block; blocks and skipped blocks
    add up to the raw blocks; each block has a non-blank line, a timing
    line that re-parses to itself and its times, and no tags yet. *)
Theorem parseSrt_invariants content :
  is_ascii content = true ->
  let (bs, skipped) := parseSrt content in
  Z.of_nat (List.length bs) + skipped = Z.of_nat (List.length (srt_raw_blocks content))
  /\ StronglySorted (fun a b => originalOrder a < originalOrder b) bs
  /\ Forall (fun b =>
       (exists raw pre, nth_error (srt_raw_blocks content) (Z.to_nat (originalOrder b)) = Some raw
                        /\ split_lines (trim raw) = pre ++ lines b)
       /\ 0 <= originalOrder b < Z.of_nat (List.length (srt_raw_blocks content))
       /\ existsb (fun l => negb (is_blank l)) (lines b) = true
       /\ parseTimingLine (timingLine b) = Some (startMs b, endMs b, timingLine b)
       /\ assignedTag b = None /\ existingTag b = None /\ keepExisting b = false) bs.
Proof.
  intros _. unfold parseSrt. pose proof (parse_srt_go_spec 0 (srt_raw_blocks content)) as H.
  destruct (parse_srt_go 0 (srt_raw_blocks content)) as [bs k].
  destruct H as (Hc & Hs & Hf). split; [exact Hc|]. split; [exact Hs|].
  eapply Forall_impl; [|exact Hf]. intros b (Hb & raw & Hn & Hp).
  rewrite Z.sub_0_r in Hn.
  destruct (parse_srt_block_spec _ _ _ Hp) as (_ & H1 & H2 & H3).
  destruct (parse_srt_block_lines _ _ _ Hp) as [pre Hpre].
  split; [exists raw, pre; split; assumption|]. split; [lia|]. auto.
Qed.

(** ** Decimal digits *)

Lemma digits_value_snoc d c : digits_value (d ++ [c]) = digits_value d * 10 + digit_value c.
Proof. unfold digits_value. rewrite fold_left_app. reflexivity. Qed.

Lemma decimal_go_digits f n acc :
  0 <= n < 10 ^ Z.of_nat (S f) ->
  exists D, decimal_go (S f) n acc = D ++ acc /\ D <> []
            /\ forallb is_digit D = true /\ digits_value D = n.
Proof.
  revert n acc; induction f as [|f IH]; intros n acc Hn.
  - simpl in Hn. rewrite decimal_go_small by lia.
    exists [digit_char n].
    destruct (digit_char_spec n ltac:(lia)) as [D1 D2].
    split; [reflexivity|]. split; [discriminate|]. simpl. rewrite D1. split; [reflexivity|].
    unfold digits_value. simpl. lia.
  - destruct (Z.ltb_spec n 10).
    + rewrite decimal_go_small by lia. exists [digit_char n].
      destruct (digit_char_spec n ltac:(lia)) as [D1 D2].
      split; [reflexivity|]. split; [discriminate|]. simpl. rewrite D1. split; [reflexivity|].
      unfold digits_value. simpl. lia.
    + rewrite decimal_go_big by lia.
      assert (Hq : 0 <= n / 10 < 10 ^ Z.of_nat (S f)).
      { split; [apply Z.div_pos; lia|]. apply Z.div_lt_upper_bound; [lia|].
        rewrite Nat2Z.inj_succ, Z.pow_succ_r in Hn by lia.
        rewrite Nat2Z.inj_succ, Z.pow_succ_r in Hn |- * by lia. lia. }
      destruct (IH (n / 10) (digit_char (n mod 10) :: acc) Hq) as (D & E & Hne & Hd & Hv).
      pose proof (Z.mod_pos_bound n 10 ltac:(lia)) as Hm.
      destruct (digit_char_spec (n mod 10) Hm) as [D1 D2].
      exists (D ++ [digit_char (n mod 10)]). rewrite E, <- app_assoc. split; [reflexivity|].
      split; [destruct D; [congruence|discriminate]|].
      rewrite forallb_app, Hd. simpl. rewrite D1. split; [reflexivity|].
      rewrite digits_value_snoc, Hv, D2. pose proof (Z.div_mod n 10). lia.
Qed.

Lemma String_of_Z_digits n :
  0 <= n ->
  String_of_Z n <> [] /\ forallb is_digit (String_of_Z n) = true
  /\ digits_value (String_of_Z n) = n.
Proof.
  intros Hn. unfold String_of_Z. destruct (Z.ltb_spec n 0); [lia|]. unfold decimal.
  destruct (decimal_go_digits (Z.to_nat (Z.log2 n)) n []) as (D & E & H1 & H2 & H3).
  - split; [lia|]. destruct (Z.eq_dec n 0) as [->|Hnz]; [simpl; lia|].
    pose proof (Z.log2_spec n ltac:(lia)) as [_ Hs].
    pose proof (Z.log2_nonneg n).
    rewrite Nat2Z.inj_succ, Z2Nat.id by lia.
    apply (Z.lt_le_trans _ _ _ Hs). apply Z.pow_le_mono_l. lia.
  - rewrite E, app_nil_r. auto.
Qed.

(** ** Lines and blocks *)

Lemma contains_arrow_app x y : contains_arrow y = true -> contains_arrow (x ++ y) = true.
Proof.
  induction x as [|c x IH]; simpl; [auto|]. intros H. rewrite IH by exact H.
  apply orb_true_r.
Qed.

Lemma contains_arrow_minus t : contains_arrow t = true -> In "-"%byte t.
Proof.
  induction t as [|c t IH]; simpl; [discriminate|].
  intros H. apply orb_true_iff in H. destruct H as [H|H]; [|right; apply IH, H].
  left. unfold starts_with, str_eqb in H.
  destruct (list_eq_dec Byte.byte_eq_dec (firstn (List.length arrow) (c :: t)) arrow)
    as [E|E]; [|discriminate].
  simpl in E. injection E; intros; subst; reflexivity.
Qed.

Lemma digits_no_arrow t : forallb is_digit t = true -> contains_arrow t = false.
Proof.
  intros H. destruct (contains_arrow t) eqn:E; [|reflexivity].
  apply contains_arrow_minus in E. rewrite forallb_forall in H.
  specialize (H _ E). discriminate H.
Qed.

Lemma split_on_plain l t cur :
  no_break l = true -> split_on_go NL (l ++ t) cur = split_on_go NL t (cur ++ l).
Proof.
  revert cur; induction l as [|c l IH]; intros cur H; simpl.
  - rewrite app_nil_r. reflexivity.
  - apply andb_true_iff in H. destruct H as [Hc Hl].
    apply andb_true_iff in Hc. destruct Hc as [Hc _]. apply negb_true_iff in Hc.
    rewrite Hc, IH by exact Hl. rewrite <- app_assoc. reflexivity.
Qed.

Lemma split_lines_join ls :
  ls <> [] -> Forall (fun l => no_break l = true) ls -> split_lines (join [NL] ls) = ls.
Proof.
  unfold split_lines. intros Hne Hf.
  assert (G : forall cur, split_on_go NL (join [NL] ls) cur
                          = match ls with [] => [cur] | l :: r => (cur ++ l) :: r end).
  { clear Hne. induction Hf as [|l r Hl Hr IH]; intros cur; [reflexivity|].
    destruct r as [|l' r].
    - simpl. rewrite <- (app_nil_r l) at 1. rewrite split_on_plain by exact Hl. reflexivity.
    - change (join [NL] (l :: l' :: r)) with (l ++ [NL] ++ join [NL] (l' :: r)).
      rewrite split_on_plain by exact Hl. simpl.
      f_equal. apply IH. }
  rewrite G. destruct ls; [congruence|reflexivity].
Qed.

Lemma join_last sep ls :
  ls <> [] -> exists pre, join sep ls = pre ++ last ls [].
Proof.
  induction ls as [|l ls IH]; intros Hne; [congruence|].
  destruct ls as [|l' ls].
  - exists []. reflexivity.
  - destruct IH as [pre E]; [discriminate|].
    exists (l ++ sep ++ pre). change (join sep (l :: l' :: ls)) with (l ++ sep ++ join sep (l' :: ls)).
    rewrite E, !app_assoc. reflexivity.
Qed.

Lemma no_cr_join sep ls :
  no_cr sep = true -> Forall (fun l => no_cr l = true) ls -> no_cr (join sep ls) = true.
Proof.
  intros Hs Hf. induction Hf as [|l r Hl Hr IH]; [reflexivity|].
  destruct r as [|l' r]; [exact Hl|].
  change (join sep (l :: l' :: r)) with (l ++ sep ++ join sep (l' :: r)).
  rewrite !no_cr_app, Hl, Hs, IH. reflexivity.
Qed.

Lemma drop_spaces_head t c r : drop_spaces t = c :: r -> is_space c = false.
Proof.
  induction t as [|x t IH]; simpl; [discriminate|].
  destruct (is_space x) eqn:E; [exact IH|]. intros H. injection H as <- _. exact E.
Qed.

Lemma drop_spaces_in t z : In z t -> is_space z = false -> drop_spaces t <> [].
Proof.
  induction t as [|x t IH]; simpl; [tauto|]. intros [<-|Hz] Hs.
  - rewrite Hs. discriminate.
  - destruct (is_space x); [apply IH; assumption|discriminate].
Qed.

Lemma not_blank_snoc q z : is_space z = false -> is_blank (q ++ [z]) = false.
Proof.
  intros Hz. unfold is_blank, trim.
  destruct (drop_spaces (q ++ [z])) as [|c r] eqn:E.
  - exfalso. apply (drop_spaces_in (q ++ [z]) z); [apply in_or_app; simpl; auto|exact Hz|exact E].
  - pose proof (drop_spaces_head _ _ _ E) as Hc.
    destruct (drop_spaces (rev (c :: r))) as [|d u] eqn:E2.
    + exfalso. apply (drop_spaces_in (rev (c :: r)) c); [|exact Hc|exact E2].
      apply in_rev. rewrite rev_involutive. simpl. auto.
    + simpl. destruct (rev u); reflexivity.
Qed.

Lemma forallb_impl {A} (p q : A -> bool) l :
  (forall x, p x = true -> q x = true) -> forallb p l = true -> forallb q l = true.
Proof.
  intros H. induction l as [|x l IH]; simpl; [auto|].
  rewrite !andb_true_iff. intros [Hx Hl]. auto.
Qed.

Lemma plain_no_break_byte c :
  plain c = true -> (negb (Byte.eqb c NL) && negb (Byte.eqb c CR))%bool = true.
Proof. destruct c; try reflexivity; discriminate. Qed.

Lemma digit_no_break_byte c :
  is_digit c = true -> (negb (Byte.eqb c NL) && negb (Byte.eqb c CR))%bool = true.
Proof. destruct c; try reflexivity; discriminate. Qed.

Lemma timing_line_facts t x y :
  parseTimingLine t = Some (x, y, t) ->
  t <> [] /\ no_break t = true /\ contains_arrow t = true /\ trim t = t
  /\ exists c r, t = c :: r /\ is_space c = false.
Proof.
  intros H. destruct (parseTimingLine_shape t x y t H) as (a & b & E & Ha & Hb).
  destruct (ts_plain a x Ha) as (Pa & c & r & z0 & q0 & Ea1 & Ea2 & Hc & Hz0).
  destruct (ts_plain b y Hb) as (Pb & c' & r' & z & q & Eb1 & Eb2 & Hc' & Hz).
  assert (Ht1 : t = c :: (r ++ s " --> " ++ b)) by (rewrite E, Ea1; reflexivity).
  assert (Ht2 : t = (a ++ s " --> " ++ q) ++ [z]) by (rewrite E, Eb2, !app_assoc; reflexivity).
  split; [rewrite Ht1; discriminate|].
  split.
  { rewrite E. unfold no_break. rewrite !forallb_app.
    rewrite (forallb_impl _ _ a plain_no_break_byte Pa), (forallb_impl _ _ b plain_no_break_byte Pb).
    reflexivity. }
  split.
  { rewrite E. apply contains_arrow_app. reflexivity. }
  split.
  { pose proof (trim_padded [] t [] c _ z _ eq_refl eq_refl Ht1 Ht2 Hc Hz) as T.
    rewrite app_nil_r in T. exact T. }
  exists c, (r ++ s " --> " ++ b). auto.
Qed.

Lemma digits_trim t :
  t <> [] -> forallb is_digit t = true -> trim t = t.
Proof.
  intros Hne Hd. destruct t as [|c r] eqn:E; [congruence|].
  rewrite <- E in *. destruct (exists_last Hne) as (q & z & Ez).
  assert (Hc : is_space c = false).
  { apply digit_not_space. rewrite E in Hd. simpl in Hd. apply andb_true_iff in Hd. tauto. }
  assert (Hz : is_space z = false).
  { apply digit_not_space. rewrite Ez, forallb_app in Hd. simpl in Hd.
    rewrite !andb_true_iff in Hd. tauto. }
  pose proof (trim_padded [] t [] c r z q eq_refl eq_refl E Ez Hc Hz) as T.
  rewrite app_nil_r in T. exact T.
Qed.

Lemma forallb_blank_last ls q z :
  last ls [] = q ++ [z] -> is_space z = false -> forallb is_blank ls = false.
Proof.
  intros E Hz. destruct ls as [|l ls']; [destruct q; discriminate|].
  assert (Hne : l :: ls' <> []) by discriminate.
  destruct (exists_last Hne) as (pre & x & Ex). rewrite Ex in *.
  rewrite last_last in E. subst x.
  rewrite forallb_app. simpl. rewrite not_blank_snoc by exact Hz.
  rewrite !andb_false_r. reflexivity.
Qed.

Lemma join_NL_3 x y ls :
  ls <> [] -> join [NL] (x :: y :: ls) = x ++ [NL] ++ y ++ [NL] ++ join [NL] ls.
Proof. intros H. destruct ls; [congruence|reflexivity]. Qed.

Lemma render_block_parse o k b :
  srt_block_ok b ->
  parse_srt_block o (render_block k b)
  = Some (mkBlock o (Some (match index b with Some n => n | None => Z.of_nat k + 1 end))
                  (startMs b) (endMs b) (timingLine b) (lines b) None None false).
Proof.
  intros (Ht & Hidx & Hne & Hl & q & z & Elast & Hz & _).
  set (n := match index b with Some n => n | None => Z.of_nat k + 1 end).
  assert (Hn : 0 <= n) by (unfold n; destruct (index b) eqn:Ei; [exact (proj1 (Hidx _ eq_refl))|lia]).
  destruct (String_of_Z_digits n Hn) as (Dne & Dd & Dv).
  destruct (timing_line_facts _ _ _ Ht) as (Tne & Tnb & Tarr & Ttrim & _).
  set (d := String_of_Z n) in *. set (tl := timingLine b) in *.
  assert (Hall : Forall (fun l => no_break l = true) (d :: tl :: lines b)).
  { constructor; [unfold no_break; exact (forallb_impl _ _ d digit_no_break_byte Dd)|].
    constructor; [exact Tnb|]. eapply Forall_impl; [|exact Hl]. simpl. tauto. }
  assert (Hrend : render_block k b = join [NL] (d :: tl :: lines b)) by reflexivity.
  assert (Htrim : trim (render_block k b) = render_block k b).
  { assert (Ed : exists c r, d = c :: r) by (destruct d as [|c r]; [congruence|eauto]).
    destruct Ed as (c & r & Ed).
    destruct (join_last [NL] (d :: tl :: lines b)) as [pre Epre]; [discriminate|].
    assert (Hlast : last (d :: tl :: lines b) [] = last (lines b) []).
    { destruct (lines b); [congruence|reflexivity]. }
    rewrite Hlast, Elast in Epre.
    assert (Hc : is_space c = false).
    { apply digit_not_space. rewrite Ed in Dd. simpl in Dd. apply andb_true_iff in Dd. tauto. }
    pose proof (trim_padded [] (render_block k b) [] c
                  (r ++ [NL] ++ join [NL] (tl :: lines b)) z (pre ++ q) eq_refl eq_refl) as T.
    rewrite app_nil_r in T. apply T; [|rewrite Hrend, Epre, app_assoc; reflexivity|exact Hc|exact Hz].
    rewrite Hrend, Ed. destruct (lines b); reflexivity. }
  clearbody d tl.
  unfold parse_srt_block. rewrite Htrim.
  assert (Hsplit : split_lines (render_block k b) = d :: tl :: lines b).
  { rewrite Hrend. apply split_lines_join; [discriminate|exact Hall]. }
  destruct (render_block k b) as [|c0 r0] eqn:Er.
  { exfalso. rewrite Hrend in Er. destruct d; [congruence|discriminate]. }
  rewrite Hsplit.
  assert (Hfind : find_index contains_arrow (d :: tl :: lines b) = Some 1%nat).
  { simpl. rewrite (digits_no_arrow d Dd), Tarr. reflexivity. }
  rewrite Hfind. cbn [nth]. rewrite Ttrim, Ht. cbn [skipn].
  rewrite (digits_trim d Dne Dd).
  assert (Hil : is_index_line d = true) by (destruct d; [congruence|exact Dd]).
  rewrite Hil, Dv.
  destruct (lines b) as [|l0 ls0] eqn:El; [congruence|].
  rewrite (forallb_blank_last (l0 :: ls0) q z Elast Hz). reflexivity.
Qed.

Lemma split_go_NL_step c t cur :
  Byte.eqb c NL = false ->
  split_go (NL :: c :: t) cur 0 = split_go (c :: t) (cur ++ [NL]) 0.
Proof. intros H. simpl. rewrite H, <- app_assoc. reflexivity. Qed.

Lemma join_head sep l r : exists rest, join sep (l :: r) = l ++ rest.
Proof. destruct r; [exists []; symmetry; apply app_nil_r|eexists; reflexivity]. Qed.

Lemma lines_ok_head ls :
  lines_ok ls -> exists c u, join [NL] ls = c :: u /\ Byte.eqb c NL = false.
Proof.
  intros [Hne Hf]. destruct ls as [|l r]; [congruence|].
  inversion Hf as [|? ? [Hl Hnb] _]; subst.
  destruct l as [|c u]; [congruence|].
  destruct (join_head [NL] (c :: u) r) as [rest E]. rewrite E.
  exists c, (u ++ rest). split; [reflexivity|].
  simpl in Hnb. apply andb_true_iff in Hnb. destruct Hnb as [Hc _].
  apply andb_true_iff in Hc. destruct Hc as [Hc _]. apply negb_true_iff in Hc. exact Hc.
Qed.

Lemma split_go_join_lines ls t cur :
  lines_ok ls -> split_go (join [NL] ls ++ t) cur 0 = split_go t (cur ++ join [NL] ls) 0.
Proof.
  intros [_ Hf]. revert t cur.
  induction Hf as [|l r [Hl Hnb] Hr IH]; intros t cur; [simpl; rewrite app_nil_r; reflexivity|].
  destruct r as [|l' r].
  - simpl. apply split_go_plain, Hnb.
  - change (join [NL] (l :: l' :: r)) with (l ++ [NL] ++ join [NL] (l' :: r)).
    rewrite <- !app_assoc, split_go_plain by exact Hnb.
    destruct (lines_ok_head (l' :: r)) as (c & u & E & Hc); [split; [discriminate|exact Hr]|].
    rewrite E. simpl app. rewrite split_go_NL_step by exact Hc.
    change (c :: u ++ t) with ((c :: u) ++ t). rewrite <- E, IH.
    rewrite <- !app_assoc. reflexivity.
Qed.

Lemma split_go_blocks B Bs cur :
  Forall lines_ok (B :: Bs) ->
  split_go (join [NL; NL] (map (join [NL]) (B :: Bs))) cur 0
  = (cur ++ join [NL] B) :: map (join [NL]) Bs.
Proof.
  revert B cur; induction Bs as [|B' Bs IH]; intros B cur Hf;
    inversion Hf as [|? ? HB Hr]; subst.
  - simpl. rewrite <- (app_nil_r (join [NL] B)) at 1.
    rewrite split_go_join_lines by exact HB. simpl. rewrite !app_nil_r. reflexivity.
  - change (join [NL; NL] (map (join [NL]) (B :: B' :: Bs)))
      with (join [NL] B ++ [NL; NL] ++ join [NL; NL] (map (join [NL]) (B' :: Bs))).
    rewrite split_go_join_lines by exact HB.
    inversion Hr as [|? ? HB' _]; subst.
    destruct (lines_ok_head B' HB') as (c & u & E & Hc).
    destruct (join_head [NL; NL] (join [NL] B') (map (join [NL]) Bs)) as [rest Er].
    simpl map at 1. rewrite Er, E. simpl. rewrite Hc. f_equal.
    specialize (IH B' [] Hr). simpl map in IH. rewrite Er, E in IH. simpl in IH.
    rewrite Hc in IH. simpl in IH. rewrite E. exact IH.
Qed.

Lemma rendered_lines_ok k b : srt_block_ok b -> lines_ok (rendered_lines (k, b)).
Proof.
  intros (Ht & Hidx & Hne & Hl & _).
  set (n := match index b with Some n => n | None => Z.of_nat k + 1 end).
  assert (Hn : 0 <= n) by (unfold n; destruct (index b) eqn:Ei; [exact (proj1 (Hidx _ eq_refl))|lia]).
  destruct (String_of_Z_digits n Hn) as (Dne & Dd & _).
  destruct (timing_line_facts _ _ _ Ht) as (Tne & Tnb & _).
  split; [discriminate|]. simpl. constructor.
  - split; [exact Dne|]. unfold no_break. exact (forallb_impl _ _ _ digit_no_break_byte Dd).
  - constructor; [auto|exact Hl].
Qed.

Lemma render_block_lines p :
  (let '(idx, b) := p in render_block idx b) = join [NL] (rendered_lines p).
Proof. destruct p; reflexivity. Qed.

Lemma parse_srt_go_render L k :
  Forall srt_block_ok L ->
  parse_srt_go (Z.of_nat k) (map (fun '(idx, b) => render_block idx b) (indexed_from k L))
  = (map (fun '(i, b) => mkBlock (Z.of_nat i)
            (Some (match index b with Some n => n | None => Z.of_nat i + 1 end))
            (startMs b) (endMs b) (timingLine b) (lines b) None None false)
         (indexed_from k L), 0).
Proof.
  intros Hf. revert k. induction Hf as [|b L Hb Hf IH]; intros k; [reflexivity|].
  pose proof (IH (S k)) as IH'. rewrite Nat2Z.inj_succ in IH'. unfold Z.succ in IH'.
  simpl. rewrite IH', render_block_parse by exact Hb. reflexivity.
Qed.

(** X4: Parsing the output of [serializeSrt] gives back its blocks in output
    order, numbered by their index (or position + 1), with the same times,
    timing line and text lines, and nothing skipped, for a non-empty list
    of blocks that [serializeSrt] can write unambiguously (see
    [srt_block_ok]; an index, if any, is below 2^53). *)
Theorem serializeSrt_parseSrt bs :
  bs <> [] -> Forall srt_block_ok bs ->
  parseSrt (serializeSrt bs)
  = (map (fun '(i, b) => mkBlock (Z.of_nat i)
            (Some (match index b with Some n => n | None => Z.of_nat i + 1 end))
            (startMs b) (endMs b) (timingLine b) (lines b) None None false)
         (indexed (sort_by serialize_cmp bs)), 0).
Proof.
  intros Hne Hf.
  pose proof (sort_by_perm SubtitleBlock serialize_cmp bs) as Hp.
  set (L := sort_by serialize_cmp bs) in *.
  assert (HL : Forall srt_block_ok L).
  { rewrite Forall_forall in *. intros x Hx. apply Hf. eapply Permutation_in; eauto. }
  unfold parseSrt, serializeSrt, srt_raw_blocks, split_newline_runs. fold L.
  assert (Hmap : map (fun '(idx, b) => render_block idx b) (indexed L)
                 = map (join [NL]) (map rendered_lines (indexed L))).
  { rewrite map_map. apply map_ext. apply render_block_lines. }
  assert (Hok : Forall lines_ok (map rendered_lines (indexed L))).
  { apply Forall_map. apply Forall_forall. intros [i x] Hin.
    apply rendered_lines_ok. rewrite Forall_forall in HL. apply HL.
    apply In_indexed in Hin. eapply nth_error_In; exact Hin. }
  rewrite Hmap, normalize_crlf_plain.
  2:{ apply no_cr_join; [reflexivity|]. apply Forall_map.
      eapply Forall_impl; [|exact Hok]. intros ls [_ Hls]. apply no_cr_join; [reflexivity|].
      eapply Forall_impl; [|exact Hls]. intros l [_ Hl]. apply no_break_no_cr, Hl. }
  destruct L as [|b0 L'] eqn:EL.
  { exfalso. apply Hne. apply Permutation_nil. exact Hp. }
  unfold indexed in *.
  change (map rendered_lines (indexed_from 0 (b0 :: L')))
    with (rendered_lines (0%nat, b0) :: map rendered_lines (indexed_from 1 L')) in Hok |- *.
  rewrite split_go_blocks by exact Hok. rewrite app_nil_l.
  change (join [NL] (rendered_lines (0%nat, b0)) :: map (join [NL]) (map rendered_lines (indexed_from 1 L')))
    with (map (join [NL]) (map rendered_lines (indexed_from 0 (b0 :: L')))).
  rewrite map_map, <- (map_ext _ _ render_block_lines).
  exact (parse_srt_go_render (b0 :: L') 0 HL).
Qed.

(** ** Paths *)

Lemma byte_eqb_spec a b : reflect (a = b) (Byte.eqb a b).
Proof.
  destruct (Byte.eqb a b) eqn:E; constructor;
    [apply Byte.byte_dec_bl, E|apply Byte.eqb_false, E].
Qed.

Lemma byte_eqb_refl a : Byte.eqb a a = true.
Proof. apply Byte.byte_dec_lb. reflexivity. Qed.

Lemma lastIndexOf_go_app c x y k acc :
  lastIndexOf_go c (x ++ y) k acc
  = lastIndexOf_go c y (k + List.length x) (lastIndexOf_go c x k acc).
Proof.
  revert k acc; induction x as [|d x IH]; intros k acc; simpl.
  - rewrite Nat.add_0_r. reflexivity.
  - rewrite IH. f_equal. lia.
Qed.

Lemma lastIndexOf_go_notin c y k acc : ~ In c y -> lastIndexOf_go c y k acc = acc.
Proof.
  revert k acc; induction y as [|d y IH]; intros k acc H; simpl; [reflexivity|].
  destruct (byte_eqb_spec d c) as [->|Hne]; [exfalso; apply H; left; reflexivity|].
  apply IH. intros Hi. apply H. right. exact Hi.
Qed.

Lemma lastIndexOf_last c x y :
  ~ In c y -> lastIndexOf c (x ++ c :: y) = Some (List.length x).
Proof.
  intros H. unfold lastIndexOf. rewrite lastIndexOf_go_app. simpl.
  rewrite byte_eqb_refl. apply lastIndexOf_go_notin, H.
Qed.

Lemma lastIndexOf_none c x : ~ In c x -> lastIndexOf c x = None.
Proof. intros H. apply lastIndexOf_go_notin, H. Qed.

Lemma lastIndexOf_some c x i :
  lastIndexOf c x = Some i ->
  (i < List.length x)%nat /\ nth_error x i = Some c /\ ~ In c (skipn (S i) x).
Proof.
  unfold lastIndexOf.
  assert (G : forall k acc, lastIndexOf_go c x k acc = Some i ->
    (acc = Some i /\ ~ In c x) \/
    ((k <= i < k + List.length x)%nat /\ nth_error x (i - k) = Some c
     /\ ~ In c (skipn (S (i - k)) x))).
  { induction x as [|d x IH]; intros k acc H; simpl in H.
    - left. split; [exact H|simpl; tauto].
    - destruct (IH (S k) _ H) as [[Ha Hn]|(Hb & Hnth & Hn)].
      + destruct (byte_eqb_spec d c) as [->|Hne].
        * injection Ha as <-. right. rewrite Nat.sub_diag. simpl. split; [lia|]. auto.
        * left. split; [exact Ha|]. simpl. intros [E|E]; [congruence|tauto].
      + right. replace (i - k)%nat with (S (i - S k)) by lia. simpl. split; [lia|]. auto. }
  intros H. destruct (G 0%nat None H) as [[Ha _]|(Hb & Hnth & Hn)]; [discriminate|].
  rewrite Nat.sub_0_r in Hnth, Hn. split; [lia|]. auto.
Qed.

Lemma lastIndexOf_go_some c x j acc : acc <> None -> lastIndexOf_go c x j acc <> None.
Proof.
  revert j acc; induction x as [|e x IH]; intros j acc Ha; simpl; [exact Ha|].
  apply IH. destruct (Byte.eqb e c); [discriminate|exact Ha].
Qed.

Lemma lastIndexOf_none_inv c x : lastIndexOf c x = None -> ~ In c x.
Proof.
  unfold lastIndexOf. generalize (@None nat) at 1. generalize 0%nat.
  induction x as [|d x IH]; intros k acc H; simpl; [tauto|].
  simpl in H. intros [<-|Hi].
  - rewrite byte_eqb_refl in H. exact (lastIndexOf_go_some d x (S k) (Some k) ltac:(discriminate) H).
  - exact (IH _ _ H Hi).
Qed.

Lemma In_skipn_In {A} (x : A) n l : In x (skipn n l) -> In x l.
Proof.
  revert l; induction n as [|n IH]; intros [|y l]; simpl; auto.
Qed.

Lemma replace_ext_srt base ext :
  ~ In "."%byte ext ->
  replaceExtWithSrt (base ++ "."%byte :: ext) = base ++ s ".srt".
Proof.
  intros H. unfold replaceExtWithSrt. rewrite lastIndexOf_last by exact H.
  rewrite firstn_app, Nat.sub_diag, firstn_all. simpl. rewrite app_nil_r. reflexivity.
Qed.

(** X5: [replaceExtWithSrt] replaces the last extension by [.srt]. *)
Theorem replaceExtWithSrt_ext base ext :
  ~ In "."%byte ext ->
  replaceExtWithSrt (base ++ "."%byte :: ext) = base ++ s ".srt".
Proof. exact (replace_ext_srt base ext). Qed.

Lemma replaceExtWithSrt_noext f :
  ~ In "."%byte f -> replaceExtWithSrt f = f ++ s ".srt".
Proof. intros H. unfold replaceExtWithSrt. rewrite lastIndexOf_none by exact H. reflexivity. Qed.

Lemma replaceExtWithSrt_shape f :
  exists base, replaceExtWithSrt f = base ++ s ".srt".
Proof.
  unfold replaceExtWithSrt. destruct (lastIndexOf "."%byte f); eexists; reflexivity.
Qed.

(** X6: [replaceExtWithSrt] is idempotent. *)
Theorem replaceExtWithSrt_idem f :
  replaceExtWithSrt (replaceExtWithSrt f) = replaceExtWithSrt f.
Proof.
  destruct (replaceExtWithSrt_shape f) as [base E]. rewrite E.
  change (s ".srt") with ("."%byte :: s "srt").
  apply replace_ext_srt. simpl. intuition discriminate.
Qed.

Lemma normalize_no_BS p : ~ In BS (normalize_slashes p).
Proof.
  unfold normalize_slashes. rewrite in_map_iff. intros (c & E & _).
  destruct (Byte.eqb c BS) eqn:Ec; [discriminate|]. apply Byte.eqb_false in Ec. congruence.
Qed.

Lemma skipn_nth {A} (l : list A) i c :
  nth_error l i = Some c -> c :: skipn (S i) l = skipn i l.
Proof.
  revert l; induction i as [|i IH]; intros [|x l] H; simpl in *; try discriminate.
  - injection H as ->. reflexivity.
  - apply IH, H.
Qed.

(** X7: [splitDirAndFile] gives a file part without slash or backslash; the
    directory is "." and the file the whole normalized path when that has
    no slash, and otherwise dir, "/" and file make up the normalized path. *)
Theorem splitDirAndFile_spec p :
  let (dir, file) := splitDirAndFile p in
  ~ In "/"%byte file /\ ~ In BS file
  /\ ((~ In "/"%byte (normalize_slashes p) /\ dir = s "." /\ file = normalize_slashes p)
      \/ dir ++ "/"%byte :: file = normalize_slashes p).
Proof.
  unfold splitDirAndFile. pose proof (normalize_no_BS p) as HB.
  set (n := normalize_slashes p) in *.
  destruct (lastIndexOf "/"%byte n) as [i|] eqn:E.
  - destruct (lastIndexOf_some _ _ _ E) as (Hi & Hnth & Hn).
    split; [exact Hn|]. split; [intros H; apply HB; eapply In_skipn_In; eassumption|].
    right. rewrite <- (firstn_skipn i n) at 3.
    f_equal. apply skipn_nth, Hnth.
  - pose proof (lastIndexOf_none_inv _ _ E) as Hn.
    split; [exact Hn|]. split; [exact HB|]. left. auto.
Qed.

Lemma applySuffix_ext base ext sfx :
  ~ In "."%byte ext -> sfx <> [] ->
  applySuffix (base ++ "."%byte :: ext) (Some sfx) = base ++ sfx ++ "."%byte :: ext.
Proof.
  intros H Hs. unfold applySuffix. destruct sfx as [|c sfx]; [congruence|].
  rewrite lastIndexOf_last by exact H.
  rewrite firstn_app, Nat.sub_diag, firstn_all, skipn_app, Nat.sub_diag, skipn_all.
  simpl. rewrite app_nil_r. reflexivity.
Qed.

Lemma normalize_plain f : ~ In BS f -> normalize_slashes f = f.
Proof.
  induction f as [|c f IH]; simpl; intros H; [reflexivity|].
  destruct (Byte.eqb c BS) eqn:E.
  - exfalso. apply H. left. apply Byte.byte_dec_bl, E.
  - f_equal. apply IH. tauto.
Qed.

Lemma splitDirAndFile_app dir f :
  ~ In "/"%byte f -> ~ In BS f ->
  splitDirAndFile (dir ++ "/"%byte :: f) = (normalize_slashes dir, f).
Proof.
  intros H1 H2.
  assert (E : normalize_slashes (dir ++ "/"%byte :: f) = normalize_slashes dir ++ "/"%byte :: f).
  { unfold normalize_slashes at 1. rewrite map_app. simpl map. f_equal. f_equal.
    exact (normalize_plain f H2). }
  unfold splitDirAndFile. rewrite E.
  rewrite lastIndexOf_last by exact H1.
  rewrite firstn_app, Nat.sub_diag, firstn_all, skipn_app.
  replace (S (List.length (normalize_slashes dir)) - List.length (normalize_slashes dir))%nat
    with 1%nat by lia.
  rewrite skipn_all2 by lia. simpl. rewrite app_nil_r. reflexivity.
Qed.

Lemma strip_trailing_slash_snoc d : strip_trailing_slash (d ++ ["/"%byte]) = d.
Proof.
  unfold strip_trailing_slash. rewrite rev_app_distr. simpl. apply rev_involutive.
Qed.

(** X8: In suffix mode the output of [dir/base.ext] goes to
    [dir'/base + suffix + .srt], with [dir'] the directory with backslashes
    turned into slashes. *)
Theorem output_target_suffix a out dir base ext sfx :
  inPlace a = false -> truthy (outDir a) = false -> suffix a = Some sfx -> sfx <> [] ->
  ~ In "."%byte ext -> ~ In "/"%byte (base ++ "."%byte :: ext) ->
  ~ In BS (base ++ "."%byte :: ext) ->
  output_target a out (dir ++ "/"%byte :: base ++ "."%byte :: ext)
  = Some (normalize_slashes dir ++ "/"%byte :: base ++ sfx ++ s ".srt").
Proof.
  intros Hi Ho Hs Hsfx He H1 H2. unfold output_target. rewrite Hi, Ho, Hs.
  destruct sfx as [|c sfx']; [congruence|]. simpl truthy.
  rewrite splitDirAndFile_app by assumption. simpl fst. simpl snd.
  rewrite replace_ext_srt by exact He.
  change (s ".srt") with ("."%byte :: s "srt"). rewrite applySuffix_ext.
  - reflexivity.
  - simpl. intuition discriminate.
  - discriminate.
Qed.

(** X9: In out-dir mode with a directory [d/], the output of [dir/base.ext]
    goes to [d/base.srt]: the trailing slash is not doubled. *)
Theorem output_target_outDir a out d dir base ext :
  inPlace a = false -> outDir a = Some (d ++ ["/"%byte]) ->
  ~ In "."%byte ext -> ~ In "/"%byte (base ++ "."%byte :: ext) ->
  ~ In BS (base ++ "."%byte :: ext) ->
  output_target a out (dir ++ "/"%byte :: base ++ "."%byte :: ext)
  = Some (d ++ "/"%byte :: base ++ s ".srt").
Proof.
  intros Hi Ho He H1 H2. unfold output_target. rewrite Hi, Ho.
  assert (Ht : truthy (Some (d ++ ["/"%byte])) = true) by (destruct d; reflexivity).
  rewrite Ht, strip_trailing_slash_snoc, splitDirAndFile_app by assumption. simpl snd.
  rewrite replace_ext_srt by exact He. reflexivity.
Qed.

(** ** Arguments *)

Lemma str_eqb_false a b : a <> b -> str_eqb a b = false.
Proof. unfold str_eqb. destruct (list_eq_dec Byte.byte_eq_dec a b); congruence. Qed.

Lemma str_eqb_true a b : str_eqb a b = true -> a = b.
Proof. unfold str_eqb. destruct (list_eq_dec Byte.byte_eq_dec a b); congruence. Qed.

Lemma parse_args_go_positional args a :
  forallb (fun x => negb (is_flag_name x)) args = true ->
  parse_args_go args a
  = mkArgs (inputs a ++ args) (output a) (outDir a) (suffix a) (inPlace a) (args_clean a)
      (args_ignoreExisting a) (args_omitDefault a) (keepWhite a) (help a).
Proof.
  revert a; induction args as [|x args IH]; intros a H.
  - destruct a; simpl. rewrite app_nil_r. reflexivity.
  - simpl in H. apply andb_true_iff in H. destruct H as [Hx H].
    unfold is_flag_name, flag_names in Hx. simpl existsb in Hx.
    rewrite !negb_orb in Hx. rewrite !andb_true_iff in Hx.
    repeat match type of Hx with
           | _ /\ _ => let h := fresh "h" in destruct Hx as [h Hx]; apply negb_true_iff in h
           end.
    apply negb_true_iff in Hx.
    simpl parse_args_go.
    repeat match goal with h : str_eqb x ?f = false |- _ => rewrite h; clear h end.
    simpl.
    destruct args as [|v rest].
    + simpl. unfold push_input. simpl. reflexivity.
    + rewrite IH by exact H. unfold push_input. simpl. rewrite <- app_assoc. reflexivity.
Qed.

Lemma parse_args_positional n p args :
  forallb (fun x => negb (is_flag_name x)) args = true ->
  parseArgs (n :: p :: args) = mkArgs args None None None false false false true false false.
Proof. intros H. unfold parseArgs. simpl skipn. rewrite parse_args_go_positional by exact H. reflexivity. Qed.

(** X10: Arguments that are no flag name all become inputs, in order, and every
    option keeps its default. *)
Theorem parseArgs_positional n p args :
  forallb (fun x => negb (is_flag_name x)) args = true ->
  parseArgs (n :: p :: args) = mkArgs args None None None false false false true false false.
Proof. exact (parse_args_positional n p args). Qed.

(** X11: Without flags, [main] prints the usage and exits 1 for no input, runs
    one file to stdout for one input, runs the first file into the second
    path for two (to stdout if that path is empty), and exits 1 with an
    error for more. *)
Theorem main_positional usageText readText writeFile n p args :
  forallb (fun x => negb (is_flag_name x)) args = true ->
  main usageText readText writeFile (n :: p :: args)
  = match args with
    | [] => [Stdout usageText; Exit 1]
    | [i] => main_loop readText (parse_file false) serializeSrt (fun _ => None) writeFile
               (mkOptions false false true) [i] 0 0
    | [i; o] => main_loop readText (parse_file false) serializeSrt
                  (fun _ => if truthy (Some o) then Some o else None) writeFile
                  (mkOptions false false true) [i] 0 0
    | _ => [Stderr (s "Multiple inputs require --in-place, --out-dir, or --suffix."); Exit 1]
    end.
Proof.
  intros H. unfold main. rewrite parse_args_positional by exact H.
  destruct args as [|i [|o [|x r]]]; reflexivity.
Qed.

Lemma parse_args_go_help args a : help a = true -> help (parse_args_go args a) = true.
Proof.
  remember (List.length args) as m eqn:Em. assert (Hm : (List.length args <= m)%nat) by lia.
  clear Em. revert args a Hm. induction m as [|m IH]; intros args a Hm Ha.
  - destruct args; [exact Ha|simpl in Hm; lia].
  - destruct args as [|x args]; [exact Ha|]. simpl in Hm. simpl parse_args_go.
    repeat match goal with
           | |- context [if ?b then _ else _] => destruct b
           | |- context [match ?l with [] => _ | _ :: _ => _ end] =>
               is_var l; destruct l
           end;
    apply IH; simpl in *; try lia; exact Ha.
Qed.

(** X12: With [--help] or [-h] as the first argument, [main] prints the usage and
    exits 0 whatever follows. *)
Theorem main_help_first usageText readText writeFile n p rest :
  main usageText readText writeFile (n :: p :: s "--help" :: rest) = [Stdout usageText; Exit 0]
  /\ main usageText readText writeFile (n :: p :: s "-h" :: rest) = [Stdout usageText; Exit 0].
Proof.
  unfold main, parseArgs, main_prelude. simpl skipn. split.
  - simpl parse_args_go. rewrite parse_args_go_help by reflexivity. reflexivity.
  - simpl parse_args_go. rewrite parse_args_go_help by reflexivity. reflexivity.
Qed.

(** ** Fields of a rich-format line *)

Lemma split_on_notin c l t cur :
  ~ In c l -> split_on_go c (l ++ t) cur = split_on_go c t (cur ++ l).
Proof.
  revert cur; induction l as [|d l IH]; intros cur H; simpl.
  - rewrite app_nil_r. reflexivity.
  - destruct (Byte.eqb d c) eqn:E.
    + exfalso. apply H. left. apply Byte.byte_dec_bl, E.
    + rewrite IH by (intros Hi; apply H; right; exact Hi). rewrite <- app_assoc. reflexivity.
Qed.

Lemma split_on_go_nonempty c t cur : split_on_go c t cur <> [].
Proof.
  revert cur; induction t as [|d t IH]; intros cur; simpl; [discriminate|].
  destruct (Byte.eqb d c); [discriminate|apply IH].
Qed.

Lemma join_split_on c t cur : join [c] (split_on_go c t cur) = cur ++ t.
Proof.
  revert cur; induction t as [|d t IH]; intros cur; simpl.
  - rewrite app_nil_r. reflexivity.
  - destruct (Byte.eqb d c) eqn:E.
    + apply Byte.byte_dec_bl in E. subst d.
      pose proof (split_on_go_nonempty c t []) as Hne.
      destruct (split_on_go c t []) as [|x r] eqn:Es; [congruence|].
      change (join [c] (cur :: x :: r)) with (cur ++ [c] ++ join [c] (x :: r)).
      rewrite <- Es, IH. reflexivity.
    + rewrite IH, <- app_assoc. reflexivity.
Qed.

Lemma split_on_go_heads c heads tail :
  Forall (fun h => ~ In c h) heads ->
  split_on_go c (join [c] (heads ++ [tail])) [] = heads ++ split_on_go c tail [].
Proof.
  intros Hf. induction Hf as [|h hs Hh Hs IH]; [reflexivity|].
  assert (E : join [c] ((h :: hs) ++ [tail]) = h ++ [c] ++ join [c] (hs ++ [tail])).
  { simpl. destruct (hs ++ [tail]) eqn:Eq; [destruct hs; discriminate|reflexivity]. }
  rewrite E, split_on_notin by exact Hh. simpl. rewrite byte_eqb_refl, IH. reflexivity.
Qed.

(** X13: [splitAssFields] with [n + 1] fields takes the first [n] comma-free
    fields and keeps the commas of the last field, trimming each (for
    ASCII fields, where [trim] is JavaScript's). *)
Theorem splitAssFields_last_keeps_commas n heads tail :
  List.length heads = n -> Forall (fun h => ~ In ","%byte h) heads ->
  Forall (fun h => is_ascii h = true) heads -> is_ascii tail = true ->
  splitAssFields (join [","%byte] (heads ++ [tail])) (S n) = map trim heads ++ [trim tail].
Proof.
  intros Hl Hf _ _. unfold splitAssFields. rewrite split_on_go_heads by exact Hf.
  pose proof (join_split_on ","%byte tail []) as J. simpl in J.
  pose proof (split_on_go_nonempty ","%byte tail []) as Hne.
  set (P := split_on_go ","%byte tail []) in *.
  rewrite length_app, Hl.
  destruct P as [|x [|y r]] eqn:EP; [congruence| |].
  - simpl in J. subst x. cbn [List.length].
    match goal with |- context [if ?b then _ else _] => destruct b eqn:Eb end.
    + rewrite map_app. reflexivity.
    + apply Nat.leb_gt in Eb. lia.
  - cbn [List.length].
    match goal with |- context [if ?b then _ else _] => destruct b eqn:Eb end.
    { apply Nat.leb_le in Eb. lia. }
    rewrite <- EP in *.
    rewrite firstn_app, Hl, Nat.sub_diag, firstn_all2 by lia. simpl. rewrite app_nil_r.
    rewrite skipn_app, Hl, Nat.sub_diag, skipn_all2 by lia. simpl. rewrite J. reflexivity.
Qed.

(** ** Rich-format events *)

Lemma span_digits_digits t h r : span_digits t = (h, r) -> forallb is_digit h = true.
Proof.
  revert h r; induction t as [|c t IH]; intros h r; simpl.
  - intros H; injection H as <- _; reflexivity.
  - destruct (is_digit c) eqn:Ec.
    + destruct (span_digits t) as [d r'] eqn:Es. intros H; injection H as <- _.
      simpl. rewrite Ec. exact (IH _ _ eq_refl).
    + intros H; injection H as <- _; reflexivity.
Qed.

Lemma digit_value_range c : is_digit c = true -> 0 <= digit_value c <= 9.
Proof. destruct c; try discriminate; intros _; unfold digit_value; simpl; lia. Qed.

Lemma digits_value_nonneg d : forallb is_digit d = true -> 0 <= digits_value d.
Proof.
  unfold digits_value. assert (G : forall acc, 0 <= acc -> forallb is_digit d = true ->
    0 <= fold_left (fun acc c => acc * 10 + digit_value c) d acc).
  { induction d as [|c d IH]; intros acc Ha H; simpl; [exact Ha|].
    simpl in H. apply andb_true_iff in H. destruct H as [Hc H].
    apply IH; [|exact H]. pose proof (digit_value_range c Hc). lia. }
  intros H. apply G; [lia|exact H].
Qed.

Lemma parseAssTimestampToMs_nonneg ts v : parseAssTimestampToMs ts = Some v -> 0 <= v.
Proof.
  unfold parseAssTimestampToMs. destruct (span_digits ts) as [h r] eqn:Es.
  pose proof (digits_value_nonneg h (span_digits_digits _ _ _ Es)) as Hh.
  destruct h as [|hc ht]; [discriminate|].
  do 7 (destruct r as [|? r]; [discriminate|]).
  match goal with |- context [if ?b then _ else _] => destruct b eqn:Eb end; [|discriminate].
  rewrite !andb_true_iff in Eb.
  destruct Eb as [[[[[[_ Hm1] Hm2] _] Hs1] Hs2] _].
  assert (Hm : 0 <= digits_value [b0; b1]) by (apply digits_value_nonneg; simpl; rewrite Hm1, Hm2; reflexivity).
  assert (Hs : 0 <= digits_value [b3; b4]) by (apply digits_value_nonneg; simpl; rewrite Hs1, Hs2; reflexivity).
  destruct r as [|d [|e [|? ?]]]; try discriminate.
  - destruct (is_digit d) eqn:Ed; [|discriminate].
    assert (0 <= digits_value [d]) by (apply digits_value_nonneg; simpl; rewrite Ed; reflexivity).
    simpl Nat.eqb. intros Hv; injection Hv as <-. nia.
  - destruct (is_digit d && is_digit e)%bool eqn:Ede; [|discriminate].
    assert (0 <= digits_value [d; e]) by (apply digits_value_nonneg; simpl; rewrite andb_true_r; exact Ede).
    simpl Nat.eqb. intros Hv; injection Hv as <-. nia.
Qed.

Lemma seq_orders o n :
  map (fun i => o + Z.of_nat i) (seq 0 (S n))
  = o :: map (fun i => (o + 1) + Z.of_nat i) (seq 0 n).
Proof.
  simpl. f_equal; [lia|]. rewrite <- seq_shift, map_map. apply map_ext. intros i. lia.
Qed.

Lemma ass_events_spec w styles fmt order ls :
  let (bs, sk) := ass_events w styles fmt order ls in
  map originalOrder bs = map (fun i => order + Z.of_nat i) (seq 0 (List.length bs))
  /\ Forall ass_block_ok bs /\ 0 <= sk
  /\ Z.of_nat (List.length bs) + sk <= Z.of_nat (List.length ls).
Proof.
  revert fmt order; induction ls as [|line rest IH]; intros fmt order.
  { simpl. repeat split; [constructor|lia|lia]. }
  simpl ass_events.
  destruct (starts_with_ci (s "Format:") line).
  { specialize (IH (Some (parseAssFormat line)) order).
    destruct (ass_events _ _ _ _ rest) as [bs sk].
    destruct IH as (H1 & H2 & H3 & H4). cbn [List.length]. rewrite Nat2Z.inj_succ.
    repeat split; auto; lia. }
  destruct (negb (starts_with_ci (s "Dialogue:") line)).
  { specialize (IH fmt order).
    destruct (ass_events _ _ _ _ rest) as [bs sk].
    destruct IH as (H1 & H2 & H3 & H4). cbn [List.length]. rewrite Nat2Z.inj_succ.
    repeat split; auto; lia. }
  destruct fmt as [fmt|].
  2:{ specialize (IH None order).
      destruct (ass_events _ _ _ _ rest) as [bs sk].
      destruct IH as (H1 & H2 & H3 & H4). cbn [List.length]. rewrite Nat2Z.inj_succ.
      repeat split; auto; lia. }
  repeat match goal with
         | |- context [match parseAssTimestampToMs ?x with _ => _ end] =>
             let E := fresh "E" in destruct (parseAssTimestampToMs x) eqn:E
         | |- context [match ass_event_lines ?a ?b ?c with _ => _ end] =>
             destruct (ass_event_lines a b c)
         end.
  1: { specialize (IH (Some fmt) (order + 1)).
       destruct (ass_events _ _ _ _ rest) as [bs sk].
       destruct IH as (H1 & H2 & H3 & H4). cbn [List.length].
       rewrite seq_orders. cbn [map]. rewrite <- H1. rewrite Nat2Z.inj_succ.
       split; [reflexivity|]. split; [|lia].
       constructor; [|exact H2].
       repeat match goal with E : parseAssTimestampToMs _ = Some _ |- _ =>
         apply parseAssTimestampToMs_nonneg in E end.
       unfold ass_block_ok. simpl. repeat split; auto. }
  all: specialize (IH (Some fmt) order);
       destruct (ass_events _ _ _ _ rest) as [bs sk];
       destruct IH as (H1 & H2 & H3 & H4); cbn [List.length]; rewrite Nat2Z.inj_succ;
       repeat split; auto; lia.
Qed.

(** X14: On ASCII text, [parseAss] numbers its blocks 0, 1, ... in order,
    gives each non-negative times, no index and no tags, and returns a
    non-negative skipped count; below 100 hours (where the code's
    floating-point sums are exact) a block's timing line is rendered from
    its times and re-parses to them. *)
Theorem parseAss_invariants content omitWhiteColor :
  is_ascii content = true ->
  let (bs, sk) := parseAss content omitWhiteColor in
  map originalOrder bs = map Z.of_nat (seq 0 (List.length bs))
  /\ Forall (fun b => 0 <= startMs b /\ 0 <= endMs b
                      /\ index b = None /\ assignedTag b = None /\ existingTag b = None
                      /\ keepExisting b = false) bs
  /\ 0 <= sk
  /\ Forall (fun b => startMs b < 360000000 -> endMs b < 360000000 ->
       timingLine b = msToSrtTimestamp (startMs b) ++ s " --> " ++ msToSrtTimestamp (endMs b)
       /\ parseTimingLine (timingLine b) = Some (startMs b, endMs b, timingLine b)) bs.
Proof.
  intros _. unfold parseAss. destruct (ass_sections _ _) as [styleLines eventLines].
  pose proof (ass_events_spec omitWhiteColor (parseAssStyles styleLines) None 0 eventLines) as H.
  destruct (ass_events _ _ _ _ _) as [bs sk]. destruct H as (H1 & H2 & H3 & _).
  split; [rewrite H1; apply map_ext; intros; lia|].
  split; [eapply Forall_impl; [|exact H2]; intros b (_ & Hb); exact Hb|]. split; [exact H3|].
  eapply Forall_impl; [|exact H2]. intros b (Ht & Hs & He & _) Hs' He'.
  split; [exact Ht|].
  rewrite Ht. apply parseTimingLine_canonical; apply ms_roundtrip; lia.
Qed.

(** ** Attribute escaping *)

Lemma In_replace_byte x c repl t :
  In x (replace_byte c repl t) -> (In x t /\ x <> c) \/ In x repl.
Proof.
  induction t as [|d t IH]; simpl; [tauto|].
  destruct (Byte.eqb d c) eqn:E.
  - intros H. apply in_app_or in H. destruct H as [H|H]; [right; exact H|].
    destruct (IH H) as [[H1 H2]|H1]; [left; tauto|right; exact H1].
  - intros [<-|H].
    + left. split; [left; reflexivity|]. apply Byte.eqb_false, E.
    + destruct (IH H) as [[H1 H2]|H1]; [left; tauto|right; exact H1].
Qed.

(** X15: The output of [escapeHtmlAttr] contains no double quote, [<] or [>]. *)
Theorem escapeHtmlAttr_safe v :
  ~ In DQ (escapeHtmlAttr v) /\ ~ In "<"%byte (escapeHtmlAttr v)
  /\ ~ In ">"%byte (escapeHtmlAttr v).
Proof.
  assert (G : forall x, In x (escapeHtmlAttr v) -> x <> DQ /\ x <> "<"%byte /\ x <> ">"%byte).
  { intros x H. unfold escapeHtmlAttr in H.
    apply In_replace_byte in H. destruct H as [[H Hgt]|H];
      [|simpl in H; intuition (subst; discriminate)].
    apply In_replace_byte in H. destruct H as [[H Hlt]|H];
      [|simpl in H; intuition (subst; discriminate)].
    apply In_replace_byte in H. destruct H as [[H Hq]|H];
      [|simpl in H; intuition (subst; discriminate)].
    auto. }
  split; [|split]; intros H; apply G in H; tauto.
Qed.

(** ** The resolver: what it keeps and what it writes *)

Lemma sweep_step_timing o act b : timing_of (snd (sweep_step o act b)) = timing_of b.
Proof.
  unfold sweep_step.
  destruct (extractLeadingTag (hd [] (lines b))) as [t|];
    [destruct (negb (clean o) && ignoreExisting o)%bool|];
    destruct (clean o); reflexivity.
Qed.

Lemma finalize_timing o b : timing_of (finalize o b) = timing_of b.
Proof.
  unfold finalize. destruct (keepExisting b); [reflexivity|].
  destruct (lines b) as [|l ls]; [reflexivity|].
  destruct (omitDefault o && _)%bool; [reflexivity|].
  destruct l as [|c l]; [reflexivity|]. destruct (Byte.eqb c _); reflexivity.
Qed.

(** X16: [assignSlots] keeps the order, index, times and timing line of every
    block. *)
Theorem assignSlots_keeps_timing o bs :
  map timing_of (assignSlots o bs) = map timing_of bs.
Proof.
  apply nth_error_ext. intros i. rewrite !nth_error_map.
  destruct (nth_error bs i) as [A|] eqn:HA.
  - destruct (assignSlots_nth o bs i A HA) as (act & H). rewrite H. simpl.
    rewrite finalize_timing, sweep_step_timing. reflexivity.
  - rewrite nth_error_assignSlots, HA. reflexivity.
Qed.

Lemma choose_tag_palette used : In (choose_tag used) POSITION_TAGS.
Proof.
  unfold choose_tag. destruct (first_free used) as [t|] eqn:E.
  - unfold first_free in E. apply find_some in E. tauto.
  - simpl. tauto.
Qed.

Lemma sweep_step_fresh o act b :
  reused o b = false ->
  keepExisting (snd (sweep_step o act b)) = keepExisting b
  /\ (lines b <> [] -> lines (snd (sweep_step o act b)) <> []).
Proof.
  unfold reused, sweep_step. intros H.
  destruct (extractLeadingTag (hd [] (lines b))) as [t|];
    [destruct (negb (clean o) && ignoreExisting o)%bool eqn:E|];
    simpl in H; try rewrite andb_true_r in H; try congruence;
    destruct (clean o); simpl; (split; [reflexivity|]);
    intros Hl; try exact Hl; destruct (lines b); simpl; congruence.
Qed.

Lemma extract_palette t rest :
  In t POSITION_TAGS -> extractLeadingTag (["{"%byte] ++ t ++ ["}"%byte] ++ rest) = Some t.
Proof.
  simpl. intros H. repeat (destruct H as [<-|H]; [reflexivity|]). destruct H.
Qed.

(** X17: After [assignSlots], a block that was not marked kept and has text gets
    a tag, from the palette unless its existing tag was reused, and its
    first line starts with that tag, except for the default tag when
    omit-default is on. *)
Theorem assignSlots_first_line_tag o bs i A b :
  nth_error bs i = Some A -> nth_error (assignSlots o bs) i = Some b ->
  keepExisting A = false -> lines A <> [] ->
  exists t, assignedTag b = Some t
    /\ (reused o A = false -> In t POSITION_TAGS)
    /\ (extractLeadingTag (hd [] (lines b)) = Some t
        \/ (omitDefault o = true /\ t = DEFAULT_TAG /\ reused o A = false)).
Proof.
  intros HA Hb Hk Hl.
  destruct (assignSlots_nth o bs i A HA) as (act & H). rewrite Hb in H. injection H as ->.
  destruct (reused o A) eqn:Hr.
  - unfold reused in Hr. destruct (clean o) eqn:Hc; [discriminate|].
    destruct (ignoreExisting o) eqn:Hi; [|discriminate].
    destruct (extractLeadingTag (hd [] (lines A))) as [t|] eqn:Ht; [|discriminate].
    rewrite (sweep_step_reused o act A t Hc Hi Ht). simpl.
    exists t. split; [reflexivity|]. split; [discriminate|]. left. exact Ht.
  - pose proof (sweep_step_not_reused o act A Hr) as Htag.
    destruct (sweep_step_fresh o act A Hr) as [Hk' Hl'].
    set (B := snd (sweep_step o act A)) in *.
    set (t := choose_tag (map e_tag (evict (startMs A) act))) in *.
    exists t. rewrite finalize_assignedTag, Htag. split; [reflexivity|].
    split; [intros _; apply choose_tag_palette|].
    unfold finalize. rewrite Hk', Hk, Htag.
    destruct (lines B) as [|l ls] eqn:EB; [exfalso; apply Hl'; [exact Hl|reflexivity]|].
    destruct (omitDefault o && str_eqb t DEFAULT_TAG)%bool eqn:Eo.
    + right. apply andb_true_iff in Eo. destruct Eo as [Eo Et].
      apply str_eqb_true in Et. auto.
    + left. pose proof (choose_tag_palette (map e_tag (evict (startMs A) act))) as Hp.
      fold t in Hp.
      destruct l as [|c l]; [apply extract_palette, Hp|].
      destruct (Byte.eqb c "{"%byte); apply extract_palette, Hp.
Qed.

(** X19: with clean mode on, ignore-existing changes nothing: the resolver
    returns the same blocks with or without it (the reuse of line 476
    requires clean off). *)
Theorem assignSlots_clean_ignores_ignoreExisting od bs :
  assignSlots (mkOptions true true od) bs = assignSlots (mkOptions true false od) bs.
Proof.
  assert (Hs : forall act w, sweep (mkOptions true true od) act w
                             = sweep (mkOptions true false od) act w).
  { intros act w. revert act. induction w as [|[i b] w IH]; intros act; [reflexivity|].
    simpl.
    replace (sweep_step (mkOptions true true od) act b)
      with (sweep_step (mkOptions true false od) act b)
      by (unfold sweep_step; simpl; destruct (extractLeadingTag _); reflexivity).
    destruct (sweep_step _ act b) as [act' b']. rewrite IH. reflexivity. }
  unfold assignSlots. rewrite Hs. reflexivity.
Qed.

(** ** The run over the inputs *)

Lemma exit_status_no_exit tr : forallb (fun e => negb (is_exit e)) tr = true -> exit_status tr = 0.
Proof.
  induction tr as [|e tr IH]; simpl; [reflexivity|].
  destruct e; simpl; try exact IH. discriminate.
Qed.

(** X18: When every read and write succeeds and every file has blocks, the run
    attempts every file, never exits early, and ends with status 0. *)
Theorem main_loop_all_succeed readText parseFile serialize target writeFile opts ins skipped :
  (forall p, In p ins -> exists txt isAss b bs sk,
       readText p = inr txt /\ parseFile p txt = (isAss, b :: bs, sk)) ->
  (forall p c, writeFile p c = None) ->
  forallb (fun e => negb (is_exit e))
    (main_loop readText parseFile serialize target writeFile opts ins 0 skipped) = true
  /\ exit_status (main_loop readText parseFile serialize target writeFile opts ins 0 skipped) = 0
  /\ List.length (filter (fun e => match e with ReadFile _ => true | _ => false end)
       (main_loop readText parseFile serialize target writeFile opts ins 0 skipped))
     = List.length ins.
Proof.
  intros Hr Hw.
  assert (G : forallb (fun e => negb (is_exit e))
                (main_loop readText parseFile serialize target writeFile opts ins 0 skipped) = true
              /\ List.length (filter (fun e => match e with ReadFile _ => true | _ => false end)
                   (main_loop readText parseFile serialize target writeFile opts ins 0 skipped))
                 = List.length ins).
  { revert skipped. induction ins as [|p ins IH]; intros skipped.
    - simpl. destruct (0 <? skipped); simpl; auto.
    - destruct (Hr p (or_introl eq_refl)) as (txt & isAss & b & bs & sk & E1 & E2).
      assert (Hr' : forall q, In q ins -> exists txt isAss b bs sk,
                  readText q = inr txt /\ parseFile q txt = (isAss, b :: bs, sk))
        by (intros q Hq; apply Hr; right; exact Hq).
      destruct (IH Hr' (skipped + sk)) as [IH1 IH2].
      simpl. rewrite E1, E2.
      destruct (target p) as [path|]; [rewrite Hw|]; simpl; rewrite IH1, IH2; auto. }
  destruct G as [G1 G2]. split; [exact G1|]. split; [apply exit_status_no_exit, G1|exact G2].
Qed.

(** ** Witnesses *)
Lemma parseTimingLine_normalizes_witness :
  parseTimingLine ([" "%byte] ++ s "00:00:01,000" ++ [" "%byte; " "%byte] ++ s "-->" ++ []
                   ++ s "00:00:02,500" ++ [" "%byte])
  = Some (1000, 2500, s "00:00:01,000" ++ s " --> " ++ s "00:00:02,500").
Proof. apply parseTimingLine_normalizes; reflexivity. Defined.

Lemma serializeSrt_parseSrt_witness :
  parseSrt (serializeSrt rt_blocks)
  = (map (fun '(i, b) => mkBlock (Z.of_nat i)
            (Some (match index b with Some n => n | None => Z.of_nat i + 1 end))
            (startMs b) (endMs b) (timingLine b) (lines b) None None false)
         (indexed (sort_by serialize_cmp rt_blocks)), 0).
Proof.
  apply serializeSrt_parseSrt; [discriminate|].
  constructor; [|constructor; [|constructor]]; unfold srt_block_ok; simpl.
  - split; [vm_compute; reflexivity|]. split; [intros n Hn; discriminate|].
    split; [discriminate|]. split; [repeat constructor; discriminate|].
    exists (s "Worl"), "d"%byte. split; [reflexivity|split; reflexivity].
  - split; [vm_compute; reflexivity|]. split; [intros n Hn; injection Hn as <-; split; [lia|vm_compute; reflexivity]|].
    split; [discriminate|]. split; [repeat constructor; discriminate|].
    exists (s "  ther"), "e"%byte. split; [reflexivity|split; reflexivity].
Defined.

Lemma parseSrt_invariants_witness :
  let (bs, skipped) := parseSrt (serializeSrt rt_blocks ++ [NL; NL] ++ s "no timing") in
  Z.of_nat (List.length bs) + skipped = Z.of_nat (List.length (srt_raw_blocks (serializeSrt rt_blocks ++ [NL; NL] ++ s "no timing")))
  /\ StronglySorted (fun a b => originalOrder a < originalOrder b) bs
  /\ Forall (fun b =>
       (exists raw pre, nth_error (srt_raw_blocks (serializeSrt rt_blocks ++ [NL; NL] ++ s "no timing")) (Z.to_nat (originalOrder b)) = Some raw
                        /\ split_lines (trim raw) = pre ++ lines b)
       /\ 0 <= originalOrder b < Z.of_nat (List.length (srt_raw_blocks (serializeSrt rt_blocks ++ [NL; NL] ++ s "no timing")))
       /\ existsb (fun l => negb (is_blank l)) (lines b) = true
       /\ parseTimingLine (timingLine b) = Some (startMs b, endMs b, timingLine b)
       /\ assignedTag b = None /\ existingTag b = None /\ keepExisting b = false) bs.
Proof. apply (parseSrt_invariants (serializeSrt rt_blocks ++ [NL; NL] ++ s "no timing")). vm_compute. reflexivity. Defined.

Lemma parseAss_invariants_witness :
  let (bs, sk) := parseAss ass_demo true in
  map originalOrder bs = map Z.of_nat (seq 0 (List.length bs))
  /\ Forall (fun b => 0 <= startMs b /\ 0 <= endMs b
                      /\ index b = None /\ assignedTag b = None /\ existingTag b = None
                      /\ keepExisting b = false) bs
  /\ 0 <= sk
  /\ Forall (fun b => startMs b < 360000000 -> endMs b < 360000000 ->
       timingLine b = msToSrtTimestamp (startMs b) ++ s " --> " ++ msToSrtTimestamp (endMs b)
       /\ parseTimingLine (timingLine b) = Some (startMs b, endMs b, timingLine b)) bs.
Proof. apply (parseAss_invariants ass_demo true). vm_compute. reflexivity. Defined.

Lemma replaceExtWithSrt_ext_witness :
  replaceExtWithSrt (s "movie.en" ++ "."%byte :: s "ass") = s "movie.en" ++ s ".srt".
Proof. apply replaceExtWithSrt_ext. simpl. intuition discriminate. Defined.

Lemma output_target_suffix_witness :
  output_target suffix_args None (s "dir\sub" ++ "/"%byte :: s "a" ++ "."%byte :: s "ass")
  = Some (normalize_slashes (s "dir\sub") ++ "/"%byte :: s "a" ++ s ".fixed" ++ s ".srt").
Proof.
  apply output_target_suffix; try reflexivity; try discriminate; simpl; intuition discriminate.
Defined.

Lemma output_target_outDir_witness :
  output_target outdir_args None (s "dir" ++ "/"%byte :: s "a" ++ "."%byte :: s "ass")
  = Some (s "out" ++ "/"%byte :: s "a" ++ s ".srt").
Proof.
  apply output_target_outDir; try reflexivity; simpl; intuition discriminate.
Defined.

Lemma parseArgs_positional_witness :
  parseArgs (s "bun" :: s "index.ts" :: ok_inputs)
  = mkArgs ok_inputs None None None false false false true false false.
Proof. apply parseArgs_positional. vm_compute. reflexivity. Defined.

Lemma main_positional_witness :
  main (s "usage") (fun _ => inr (s "Hi")) (fun _ _ => None) (s "bun" :: s "index.ts" :: ok_inputs)
  = main_loop (fun _ => inr (s "Hi")) (parse_file false) serializeSrt
      (fun _ => if truthy (Some (s "b.srt")) then Some (s "b.srt") else None) (fun _ _ => None)
      (mkOptions false false true) [s "a.srt"] 0 0.
Proof. apply (main_positional _ _ _ _ _ ok_inputs). vm_compute. reflexivity. Defined.

Lemma splitAssFields_last_keeps_commas_witness :
  splitAssFields (join [","%byte] ([s "0"; s " Default"] ++ [s " Hello, world "])) 3
  = map trim [s "0"; s " Default"] ++ [trim (s " Hello, world ")].
Proof.
  apply (splitAssFields_last_keeps_commas 2); [reflexivity| | |reflexivity].
  - repeat constructor; simpl; intuition discriminate.
  - repeat constructor.
Defined.

Lemma assignSlots_first_line_tag_witness :
  exists t, assignedTag (match nth_error (assignSlots opts_default two_blocks) 1 with
                    | Some b => b | None => mk 1 2000 6000 "Bye" end) = Some t
    /\ (reused opts_default (mk 1 2000 6000 "Bye") = false -> In t POSITION_TAGS)
    /\ (extractLeadingTag (hd [] (lines (match nth_error (assignSlots opts_default two_blocks) 1 with
                    | Some b => b | None => mk 1 2000 6000 "Bye" end))) = Some t
        \/ (omitDefault opts_default = true /\ t = DEFAULT_TAG
            /\ reused opts_default (mk 1 2000 6000 "Bye") = false)).
Proof.
  destruct (assignSlots_first_line_tag opts_default two_blocks 1 (mk 1 2000 6000 "Bye")
              (match nth_error (assignSlots opts_default two_blocks) 1 with
               | Some b => b | None => mk 1 2000 6000 "Bye" end))
    as (t & H1 & H2 & H3).
  - reflexivity.
  - vm_compute. reflexivity.
  - reflexivity.
  - discriminate.
  - exists t. auto.
Defined.

Lemma main_loop_all_succeed_witness :
  forallb (fun e => negb (is_exit e))
    (main_loop demo_read demo_parse serializeSrt (fun _ => None) (fun _ _ => None)
       opts_default ok_inputs 0 0) = true
  /\ exit_status (main_loop demo_read demo_parse serializeSrt (fun _ => None) (fun _ _ => None)
       opts_default ok_inputs 0 0) = 0
  /\ List.length (filter (fun e => match e with ReadFile _ => true | _ => false end)
       (main_loop demo_read demo_parse serializeSrt (fun _ => None) (fun _ _ => None)
          opts_default ok_inputs 0 0)) = List.length ok_inputs.
Proof.
  apply main_loop_all_succeed; [|reflexivity].
  intros p [<-|[<-|[]]]; do 5 eexists; split; vm_compute; reflexivity.
Defined.
